(** * Conway's Game of Life on a torus: the [Grid] class of [life.py]

    The grid keeps only the set of on cells.  Python integers are
    unbounded, so coordinates and the size are in [Z]; Python sets of
    tuples are [gset (Z * Z)].  The only operation of the class that can
    raise is [%] with a zero right operand ([ZeroDivisionError]); the
    methods that use it return an [option], [None] standing for the
    exception. *)

From Stdlib Require Import ZArith Lia.
From stdpp Require Import gmap list.

Open Scope Z_scope.

#[local] Set Warnings "-clear-no-such-hyp".

(** A cell is a tuple [(r, c)]. *)
Abbreviation cell := (Z * Z)%type.

(** Python's [len] on a set. *)
Definition len (s : gset cell) : Z := Z.of_nat (size s).

(** Python's [a % n] on integers: floor remainder, with the sign of [n];
    raises on [n = 0]. *)
Definition py_mod (a n : Z) : option Z :=
  if decide (n = 0) then None else Some (a mod n).

(** The two attributes set by [__init__]. *)
Record Grid : Type := mkGrid {
  size : Z;
  on_cells : gset cell
}.

(** [Grid(size)] *)
Definition init (n : Z) : Grid := mkGrid n ∅.

(** [self.on_cells = self.on_cells.union(cells)] *)
Definition turn_on (g : Grid) (cells : list cell) : Grid :=
  mkGrid (size g) (on_cells g ∪ list_to_set cells).

(** [self.on_cells = self.on_cells.difference(cells)] *)
Definition turn_off (g : Grid) (cells : list cell) : Grid :=
  mkGrid (size g) (on_cells g ∖ list_to_set cells).

(** Body of the inner loop of [neighbours]: skip the cell itself, add
    every other pair. *)
Definition add_col (r c i_row : Z) (nbrs : gset cell) (i_col : Z) : gset cell :=
  if decide ((i_row, i_col) = (r, c)) then nbrs else {[ (i_row, i_col) ]} ∪ nbrs.

(** Body of the outer loop: the tuple of columns is built (both remainders
    taken) and then traversed.  The middle entry is [c] itself, not reduced. *)
Definition add_row (n r c : Z) (acc : option (gset cell)) (i_row : Z)
  : option (gset cell) :=
  nbrs ← acc;
  cm ← py_mod (c - 1) n;
  cp ← py_mod (c + 1) n;
  Some (foldl (add_col r c i_row) nbrs [cm; c; cp]).

Definition neighbours (g : Grid) (x : cell) : option (gset cell) :=
  let '(r, c) := x in
  rm ← py_mod (r - 1) (size g);
  rp ← py_mod (r + 1) (size g);
  foldl (add_row (size g) r c) (Some ∅) [rm; r; rp].

(** [self.on_cells.intersection(self.neighbours(cell))] *)
Definition on_neighbours (g : Grid) (x : cell) : option (gset cell) :=
  nbrs ← neighbours g x;
  Some (on_cells g ∩ nbrs).

(** Body of the first loop of [update]; the accumulator is
    [(new_on_cells, off_nbrs_of_on_cells)]. *)
Definition survive_step (g : Grid) (x : cell)
    (acc : option (gset cell * gset cell)) : option (gset cell * gset cell) :=
  '(new_on_cells, off_nbrs_of_on_cells) ← acc;
  nbrs ← neighbours g x;
  let on_nbrs := nbrs ∩ on_cells g in
  let new_on_cells :=
    if decide (len on_nbrs = 2 ∨ len on_nbrs = 3)
    then {[ x ]} ∪ new_on_cells else new_on_cells in
  let off_nbrs := nbrs ∖ on_nbrs in
  Some (new_on_cells, off_nbrs_of_on_cells ∪ off_nbrs).

(** Body of the second loop of [update]. *)
Definition birth_step (g : Grid) (x : cell) (acc : option (gset cell))
  : option (gset cell) :=
  new_on_cells ← acc;
  on_nbrs ← on_neighbours g x;
  Some (if decide (len on_nbrs = 3) then {[ x ]} ∪ new_on_cells else new_on_cells).

(** [update]: both loops read [self.on_cells] of the old generation; the
    attribute is assigned once, at the end.  Python fixes no order for the
    traversal of a set; [set_fold] takes the order of [elements], and the
    lemmas on the two loops hold by induction on the set, for any order. *)
Definition update (g : Grid) : option Grid :=
  '(new_on_cells, off_nbrs_of_on_cells) ←
     set_fold (survive_step g) (Some (∅, ∅)) (on_cells g);
  new_on_cells ← set_fold (birth_step g) (Some new_on_cells) off_nbrs_of_on_cells;
  Some (mkGrid (size g) new_on_cells).

(** [r] and [c] are in [range(self.size)]. *)
Definition in_range (g : Grid) (x : cell) : Prop :=
  (0 <= x.1 < size g) ∧ (0 <= x.2 < size g).

(** Number of on neighbours, [len(self.on_neighbours(cell))]. *)
Definition on_count (g : Grid) (x : cell) : option Z :=
  len <$> on_neighbours g x.

(** The grid as it is after a call of [update]: when the call raises, no
    attribute has been assigned. *)
Definition after_update (g : Grid) : Grid := default g (update g).

(** ** Closed form of the neighbour relation

    [is_nbr n x y]: [y] is produced by the two loops of [neighbours] on
    [x] in a grid of size [n]. *)
Definition is_nbr (n : Z) (x y : cell) : Prop :=
  (y.1 ≠ x.1 ∨ y.2 ≠ x.2) ∧
  (y.1 = (x.1 - 1) mod n ∨ y.1 = x.1 ∨ y.1 = (x.1 + 1) mod n) ∧
  (y.2 = (x.2 - 1) mod n ∨ y.2 = x.2 ∨ y.2 = (x.2 + 1) mod n).

#[global] Instance is_nbr_dec n x y : Decision (is_nbr n x y).
Proof. unfold is_nbr. apply _. Defined.

(** The neighbour set as a total function, for sizes other than [0]. *)
Definition nbr_set (n : Z) (x : cell) : gset cell :=
  default ∅ (neighbours (mkGrid n ∅) x).

(** Number of on neighbours as a total function, for sizes other than [0]. *)
Definition count (g : Grid) (x : cell) : Z :=
  len (on_cells g ∩ nbr_set (size g) x).

(** The invariant of the data model: every on cell is in range. *)
Definition valid (g : Grid) : Prop := ∀ x, x ∈ on_cells g → in_range g x.

(** The eight cells around [(0, 0)], in the order of the two loops. *)
Definition corner_nbrs (n : Z) : list cell :=
  [ (n - 1, n - 1); (n - 1, 0); (n - 1, 1);
    (0, n - 1); (0, 1);
    (1, n - 1); (1, 0); (1, 1) ].

(** The patterns of the examples: the blinker in its two phases, and the
    block. *)
Definition blinker_row : gset cell := {[ (2, 1); (2, 2); (2, 3) ]}.
Definition blinker_col : gset cell := {[ (1, 2); (2, 2); (3, 2) ]}.
Definition block : gset cell := {[ (1, 1); (1, 2); (2, 1); (2, 2) ]}.

(** ** Symmetries of the torus

    Vocabulary for the statements on [update]: the exchange of rows and
    columns, and the move of every cell by [(dr, dc)] around the torus. *)
Definition transpose (x : cell) : cell := (x.2, x.1).

Definition shift (n dr dc : Z) (x : cell) : cell :=
  ((x.1 + dr) mod n, (x.2 + dc) mod n).

(** The mirror image in row 0: row [r] goes to row [-r], wrapped. *)
Definition flip (n : Z) (x : cell) : cell := ((- x.1) mod n, x.2).

(** The nine pairs that the two loops of [neighbours] go through, less the
    middle one, which is always skipped. *)
Definition around (n : Z) (x : cell) : list cell :=
  let rm := (x.1 - 1) mod n in let rp := (x.1 + 1) mod n in
  let cm := (x.2 - 1) mod n in let cp := (x.2 + 1) mod n in
  [ (rm, cm); (rm, x.2); (rm, cp);
    (x.1, cm); (x.1, cp);
    (rp, cm); (rp, x.2); (rp, cp) ].

(** ** The image of [_display] and the loop of [display]

    Of [_display] and [display] the state and the list handed to [imshow]
    are modelled; the calls into [matplotlib] are not. *)

(** Python's index into a list of length [n]: a negative index counts from
    the end, and an index out of [-n, n) raises [IndexError]. *)
Definition py_index (n : nat) (i : Z) : option nat :=
  if decide (0 <= i < Z.of_nat n) then Some (Z.to_nat i)
  else if decide (- Z.of_nat n <= i < 0) then Some (Z.to_nat (i + Z.of_nat n))
  else None.

(** [arr[i_r][i_c] = 1]: the row is fetched, then assigned at the column.
    The rows are distinct lists, each made by its own comprehension. *)
Definition set_pixel (x : cell) (acc : option (list (list Z)))
  : option (list (list Z)) :=
  arr ← acc;
  i ← py_index (length arr) x.1;
  row ← arr !! i;
  j ← py_index (length row) x.2;
  Some (<[i := <[j := 1]> row]> arr).

(** [[[0 for _ in range(size)] for _ in range(size)]]; [range] of a negative
    number is empty. *)
Definition zeros (n : Z) : list (list Z) :=
  replicate (Z.to_nat n) (replicate (Z.to_nat n) 0).

(** The list of lists that [_display] builds and hands to [imshow]. *)
Definition display_arr (g : Grid) : option (list (list Z)) :=
  set_fold set_pixel (Some (zeros (size g))) (on_cells g).

(** [arr[r][c]] for indices that are not negative. *)
Definition pixel (arr : list (list Z)) (r c : Z) : option Z :=
  row ← arr !! Z.to_nat r; row !! Z.to_nat c.

(** The coordinates that index the image without an [IndexError]. *)
Definition drawable (g : Grid) (x : cell) : Prop :=
  (- size g <= x.1 < size g) ∧ (- size g <= x.2 < size g).

#[global] Instance drawable_dec g x : Decision (drawable g x).
Proof. unfold drawable. apply _. Defined.

(** What the loop of [_display] keeps: the image is [size] by [size], holds
    only 0 and 1, and a 1 is where one of the cells [X] done so far falls. *)
Definition image_inv (g : Grid) (arr : list (list Z)) (X : gset cell) : Prop :=
  let s := size g in
  let n := Z.to_nat (size g) in
  length arr = n ∧
  (∀ i row, arr !! i = Some row → length row = n) ∧
  ∀ i j, (i < n)%nat → (j < n)%nat →
    ∃ v, arr !! i ≫= (.!! j) = Some v ∧ (v = 1 ∨ v = 0) ∧
      (v = 1 ↔ ∃ x, x ∈ X ∧ Z.to_nat (x.1 mod s) = i ∧ Z.to_nat (x.2 mod s) = j).

(** The loop of [display]: [update], then [_display], [n_updates] times. *)
Fixpoint display_loop (k : nat) (g : Grid) : option Grid :=
  match k with
  | O => Some g
  | S k => g' ← update g; _ ← display_arr g'; display_loop k g'
  end.

(** [display]: the initial state is shown first; [range(n_updates)] is empty
    for a negative number.  The result is the grid as [display] leaves it. *)
Definition display (g : Grid) (n_updates : Z) : option Grid :=
  _ ← display_arr g; display_loop (Z.to_nat n_updates) g.

(** [main]: the seed around the middle of a grid of size 200 ([//] is the
    floor division), turned on, then shown for 10000 updates. *)
Definition main : option Grid :=
  let size := 200 in
  let on_cells :=
    (λ '(r, c), (size / 2 + r, size / 2 + c)) <$>
      [(0, 0); (1, 0); (1, 1); (1, 2); (2, 1)] in
  let grid := init size in
  let grid := turn_on grid on_cells in
  display grid 10000.

(** * Properties *)

Lemma blinker_row_list : blinker_row = list_to_set [(2, 1); (2, 2); (2, 3)].
Proof. by vm_compute. Qed.
Lemma blinker_col_list : blinker_col = list_to_set [(1, 2); (2, 2); (3, 2)].
Proof. by vm_compute. Qed.
Lemma block_list : block = list_to_set [(1, 1); (1, 2); (2, 1); (2, 2)].
Proof. by vm_compute. Qed.

Section Neighbours.
Implicit Types (g : Grid) (x y : cell) (n r c : Z) (S : gset cell).

Lemma py_mod_Some a n : n ≠ 0 → py_mod a n = Some (a mod n).
Proof. intros Hn. unfold py_mod. by rewrite decide_False. Qed.

Lemma py_mod_None a : py_mod a 0 = None.
Proof. reflexivity. Qed.

Lemma elem_of_add_col r c i_row S i_col y :
  y ∈ add_col r c i_row S i_col ↔
  y ∈ S ∨ (y = (i_row, i_col) ∧ y ≠ (r, c)).
Proof.
  unfold add_col. case_decide as Heq.
  - split; [auto|]. intros [?|[-> ?]]; [done|]. by rewrite Heq in *.
  - rewrite elem_of_union, elem_of_singleton. split.
    + intros [-> | ?]; auto.
    + intros [?|[-> ?]]; auto.
Qed.

Lemma elem_of_add_row n r c S i_row y :
  n ≠ 0 →
  ∃ S', add_row n r c (Some S) i_row = Some S' ∧
    (y ∈ S' ↔ y ∈ S ∨
       (y ≠ (r, c) ∧ y.1 = i_row ∧
        (y.2 = (c - 1) mod n ∨ y.2 = c ∨ y.2 = (c + 1) mod n))).
Proof.
  intros Hn. unfold add_row. simpl.
  rewrite !py_mod_Some by done. simpl.
  eexists; split; [reflexivity|].
  rewrite !elem_of_add_col. destruct y as [y1 y2]; simpl.
  split.
  - intros [[[?|[[= -> ->] ?]]|[[= -> ->] ?]]|[[= -> ->] ?]]; auto 10.
  - intros [?|(? & -> & [-> | [-> | ->]])]; auto 10.
Qed.

Lemma neighbours_size g x : neighbours g x = neighbours (mkGrid (size g) ∅) x.
Proof. by destruct x. Qed.

Lemma neighbours_None g x : size g = 0 → neighbours g x = None.
Proof. intros Hn. destruct x as [r c]. unfold neighbours. by rewrite Hn. Qed.

Lemma neighbours_Some g x :
  size g ≠ 0 → neighbours g x = Some (nbr_set (size g) x).
Proof.
  intros Hn. unfold nbr_set. rewrite <- neighbours_size.
  destruct x as [r c]. unfold neighbours.
  rewrite !py_mod_Some by done. cbn [foldl mbind option_bind].
  destruct (elem_of_add_row (size g) r c ∅ ((r - 1) mod size g) (0, 0) Hn)
    as (S1 & -> & _).
  destruct (elem_of_add_row (size g) r c S1 r (0, 0) Hn) as (S2 & -> & _).
  by destruct (elem_of_add_row (size g) r c S2 ((r + 1) mod size g) (0, 0) Hn)
    as (S3 & -> & _).
Qed.

Lemma elem_of_nbr_set n x y : n ≠ 0 → y ∈ nbr_set n x ↔ is_nbr n x y.
Proof.
  intros Hn. unfold nbr_set. destruct x as [r c]. unfold neighbours.
  cbn [size]. rewrite !py_mod_Some by done. cbn [foldl mbind option_bind].
  destruct (elem_of_add_row n r c ∅ ((r - 1) mod n) y Hn) as (S1 & -> & H1).
  destruct (elem_of_add_row n r c S1 r y Hn) as (S2 & -> & H2).
  destruct (elem_of_add_row n r c S2 ((r + 1) mod n) y Hn) as (S3 & -> & H3).
  simpl. rewrite H3, H2, H1. unfold is_nbr. destruct y as [y1 y2]; simpl.
  assert ((y1, y2) ≠ (r, c) ↔ (y1 ≠ r ∨ y2 ≠ c)) as ->.
  { split; [|intros [?|?] [= ? ?]; done].
    intros Hne. destruct (decide (y1 = r)) as [->|]; [|auto].
    right. intros ->. done. }
  rewrite elem_of_empty.
  split.
  - intros [[[[]|(? & ? & ?)]|(? & ? & ?)]|(? & ? & ?)]; auto.
  - intros (? & [?|[?|?]] & ?); auto 6.
Qed.

Lemma elem_of_neighbours g x S y :
  neighbours g x = Some S → y ∈ S ↔ is_nbr (size g) x y.
Proof.
  intros HS. destruct (decide (size g = 0)) as [Hn|Hn].
  - by rewrite neighbours_None in HS.
  - rewrite neighbours_Some in HS by done. injection HS as <-.
    by apply elem_of_nbr_set.
Qed.
End Neighbours.

(** ** The two loops of [update] *)

Section Update.
Variable g : Grid.
Implicit Types (x y : cell) (X : gset cell).

Lemma on_neighbours_Some x :
  size g ≠ 0 → on_neighbours g x = Some (on_cells g ∩ nbr_set (size g) x).
Proof. intros Hn. unfold on_neighbours. by rewrite neighbours_Some. Qed.

Lemma on_count_Some x : size g ≠ 0 → on_count g x = Some (count g x).
Proof. intros Hn. unfold on_count. by rewrite on_neighbours_Some. Qed.

Lemma on_count_None x : size g = 0 → on_count g x = None.
Proof.
  intros Hn. unfold on_count, on_neighbours. by rewrite neighbours_None.
Qed.

Lemma survive_step_Some x new off :
  size g ≠ 0 →
  survive_step g x (Some (new, off)) =
  Some (if decide (count g x = 2 ∨ count g x = 3) then {[ x ]} ∪ new else new,
        off ∪ (nbr_set (size g) x ∖ on_cells g)).
Proof.
  intros Hn. unfold survive_step. cbn [mbind option_bind].
  rewrite neighbours_Some by done. cbn [mbind option_bind].
  unfold count. rewrite (comm_L (∩) (on_cells g)).
  do 2 f_equal. set_solver.
Qed.

(** First loop: the survivors and the off neighbours of the on cells. *)
Lemma survive_fold X :
  size g ≠ 0 →
  ∃ new off,
    set_fold (survive_step g) (Some (∅, ∅)) X = Some (new, off) ∧
    (∀ y, y ∈ new ↔ y ∈ X ∧ (count g y = 2 ∨ count g y = 3)) ∧
    (∀ y, y ∈ off ↔
          (y ∉ on_cells g) ∧ ∃ x, x ∈ X ∧ is_nbr (size g) x y).
Proof.
  intros Hn. revert X.
  apply (set_fold_ind_L (λ acc X, ∃ new off, acc = Some (new, off) ∧
    (∀ y, y ∈ new ↔ y ∈ X ∧ (count g y = 2 ∨ count g y = 3)) ∧
    (∀ y, y ∈ off ↔ (y ∉ on_cells g) ∧ ∃ x, x ∈ X ∧ is_nbr (size g) x y))).
  - exists ∅, ∅. split; [done|]. split; intros y; set_solver.
  - intros x X acc Hx (new & off & -> & Hnew & Hoff).
    rewrite survive_step_Some by done.
    eexists _, _. split; [reflexivity|]. split; intros y.
    + case_decide as Hc.
      * rewrite elem_of_union, elem_of_singleton, Hnew, elem_of_union,
          elem_of_singleton.
        split; [intros [-> | [? ?]]; auto|intros [[-> | ?] ?]; auto].
      * rewrite Hnew, elem_of_union, elem_of_singleton.
        split; [intros [? ?]; auto|intros [[-> | ?] ?]; [done|auto]].
    + rewrite elem_of_union, Hoff, elem_of_difference,
        (elem_of_nbr_set _ _ _ Hn).
      split.
      * intros [(? & z & ? & ?)|[? ?]]; (split; [done|]).
        -- exists z. split; [set_solver|done].
        -- exists x. split; [set_solver|done].
      * intros (? & z & [->%elem_of_singleton|?]%elem_of_union & ?);
          [right|left]; eauto.
Qed.

Lemma birth_step_Some x new :
  size g ≠ 0 →
  birth_step g x (Some new) =
  Some (if decide (count g x = 3) then {[ x ]} ∪ new else new).
Proof.
  intros Hn. unfold birth_step. cbn [mbind option_bind].
  by rewrite on_neighbours_Some.
Qed.

(** Second loop: the candidates with exactly three on neighbours join. *)
Lemma birth_fold new0 X :
  size g ≠ 0 →
  ∃ new,
    set_fold (birth_step g) (Some new0) X = Some new ∧
    (∀ y, y ∈ new ↔ y ∈ new0 ∨ (y ∈ X ∧ count g y = 3)).
Proof.
  intros Hn. revert X.
  apply (set_fold_ind_L (λ acc X, ∃ new, acc = Some new ∧
    (∀ y, y ∈ new ↔ y ∈ new0 ∨ (y ∈ X ∧ count g y = 3)))).
  - exists new0. split; [done|]. intros y. set_solver.
  - intros x X acc Hx (new & -> & Hnew).
    rewrite birth_step_Some by done.
    eexists. split; [reflexivity|]. intros y.
    case_decide as Hc.
    + rewrite elem_of_union, elem_of_singleton, Hnew, elem_of_union,
        elem_of_singleton.
      split; [intros [-> | [?|[? ?]]]; auto|intros [?|[[-> | ?] ?]]; auto].
    + rewrite Hnew, elem_of_union, elem_of_singleton.
      split; [intros [?|[? ?]]; auto|intros [?|[[-> | ?] ?]]; [auto|done|auto]].
Qed.

(** On a grid of size [0] the first iteration of the first loop raises. *)
Lemma survive_fold_None X :
  size g = 0 → X ≠ ∅ → set_fold (survive_step g) (Some (∅, ∅)) X = None.
Proof.
  intros Hn. revert X.
  apply (set_fold_ind_L (λ acc X, X ≠ ∅ → acc = None)); [done|].
  intros x X acc _ _ _. unfold survive_step.
  destruct acc as [[new off]|]; [|done]. cbn [mbind option_bind].
  by rewrite neighbours_None.
Qed.

(** What [update] computes on a grid whose size is not [0]. *)
Lemma update_Some :
  size g ≠ 0 →
  ∃ new,
    update g = Some (mkGrid (size g) new) ∧
    ∀ y, y ∈ new ↔
      (y ∈ on_cells g ∧ (count g y = 2 ∨ count g y = 3)) ∨
      ((y ∉ on_cells g) ∧ (∃ x, x ∈ on_cells g ∧ is_nbr (size g) x y) ∧
       count g y = 3).
Proof.
  intros Hn. unfold update.
  destruct (survive_fold (on_cells g) Hn) as (new1 & off & -> & Hnew1 & Hoff).
  cbn [mbind option_bind].
  destruct (birth_fold new1 off Hn) as (new & -> & Hnew).
  cbn [mbind option_bind].
  exists new. split; [done|]. intros y.
  rewrite Hnew, Hnew1, Hoff. tauto.
Qed.

Lemma update_empty : on_cells g = ∅ → update g = Some g.
Proof.
  intros He. unfold update. rewrite He, set_fold_empty.
  cbn [mbind option_bind]. rewrite set_fold_empty.
  cbn [mbind option_bind]. destruct g as [n on]. simpl in *. by rewrite He.
Qed.

Lemma update_None : size g = 0 → on_cells g ≠ ∅ → update g = None.
Proof.
  intros Hn He. unfold update. by rewrite survive_fold_None.
Qed.
End Update.

(** ** Arithmetic of the wrap-around *)

Section Wrap.
Implicit Types (n a : Z) (x y : cell).

Lemma mod_minus_one a n : a = -1 → 0 < n → a mod n = n - 1.
Proof.
  intros -> Hn. symmetry. apply (Z.mod_unique _ _ (-1)); lia.
Qed.

Lemma mod_wrap_up a n : a = n → 0 < n → a mod n = 0.
Proof. intros -> Hn. apply Z.mod_same. lia. Qed.

Lemma mod_succ_pred a n : 0 <= a < n → ((a - 1) mod n + 1) mod n = a.
Proof.
  intros Ha. rewrite Z.add_mod_idemp_l by lia.
  replace (a - 1 + 1) with a by lia. by apply Z.mod_small.
Qed.

Lemma mod_pred_succ a n : 0 <= a < n → ((a + 1) mod n - 1) mod n = a.
Proof.
  intros Ha. rewrite Zminus_mod_idemp_l.
  replace (a + 1 - 1) with a by lia. by apply Z.mod_small.
Qed.

Lemma is_nbr_irrefl n x : ¬ is_nbr n x x.
Proof. intros ([?|?] & _); done. Qed.

(** Neighbours of a cell in range are in range. *)
Lemma is_nbr_in_range n x y :
  0 <= x.1 < n → 0 <= x.2 < n → is_nbr n x y →
  0 <= y.1 < n ∧ 0 <= y.2 < n.
Proof.
  intros H1 H2 (_ & Hr & Hc).
  assert (0 < n) as Hn by lia.
  pose proof (Z.mod_pos_bound (x.1 - 1) n Hn).
  pose proof (Z.mod_pos_bound (x.1 + 1) n Hn).
  pose proof (Z.mod_pos_bound (x.2 - 1) n Hn).
  pose proof (Z.mod_pos_bound (x.2 + 1) n Hn).
  lia.
Qed.

(** Between cells one of which is in range, being a neighbour is
    symmetric. *)
Lemma is_nbr_sym n x y :
  0 <= x.1 < n → 0 <= x.2 < n → is_nbr n x y → is_nbr n y x.
Proof.
  intros H1 H2 (Hne & Hr & Hc). split; [|split].
  - destruct Hne; [left|right]; congruence.
  - destruct Hr as [-> | [-> | ->]].
    + right; right. by rewrite mod_succ_pred.
    + by right; left.
    + left. by rewrite mod_pred_succ.
  - destruct Hc as [-> | [-> | ->]].
    + right; right. by rewrite mod_succ_pred.
    + by right; left.
    + left. by rewrite mod_pred_succ.
Qed.
End Wrap.

(** ** The rule of the game *)

(** A set of cells with a positive number of elements has one. *)
Lemma len_pos_elem_of (S : gset cell) : 0 < len S → ∃ y, y ∈ S.
Proof. unfold len. intros H. apply size_pos_elem_of. lia. Qed.

(** C1. For every grid and every state of [on_cells] (in range or not),
    after one call of [update] a cell of the grid is on if and only if it
    was on and had exactly 2 or 3 on neighbours, or it was off and had
    exactly 3 on neighbours; the counts are those of [on_neighbours] on the
    grid before the call. *)
Theorem update_rule (g : Grid) (x : cell) :
  in_range g x →
  ∃ g', update g = Some g' ∧
    (x ∈ on_cells g' ↔
       (x ∈ on_cells g ∧ (on_count g x = Some 2 ∨ on_count g x = Some 3)) ∨
       ((x ∉ on_cells g) ∧ on_count g x = Some 3)).
Proof.
  intros [Hr Hc]. assert (size g ≠ 0) as Hn by lia.
  destruct (update_Some g Hn) as (new & -> & Hnew).
  eexists. split; [reflexivity|]. cbn [on_cells].
  rewrite Hnew, on_count_Some by done.
  split.
  - intros [[? [-> | ->]]|(? & _ & ->)]; auto.
  - intros [[? [[= ?]|[= ?]]]|[Hoff [= H3]]]; [left; auto..|right].
    split; [done|]. split; [|done].
    destruct (len_pos_elem_of (on_cells g ∩ nbr_set (size g) x)) as [y Hy].
    { fold (count g x). lia. }
    apply elem_of_intersection in Hy as [Hy1 Hy2].
    apply elem_of_nbr_set in Hy2; [|done].
    exists y. split; [done|]. by apply is_nbr_sym.
Qed.

Lemma update_rule_witness :
  in_range (mkGrid 6 blinker_row) (1, 2) ∧
  ∃ g', update (mkGrid 6 blinker_row) = Some g' ∧
    ((1, 2) ∈ on_cells g' ↔
       ((1, 2) ∈ blinker_row ∧
        (on_count (mkGrid 6 blinker_row) (1, 2) = Some 2 ∨
         on_count (mkGrid 6 blinker_row) (1, 2) = Some 3)) ∨
       (((1, 2) ∉ blinker_row) ∧
        on_count (mkGrid 6 blinker_row) (1, 2) = Some 3)).
Proof.
  split; [unfold in_range; simpl; lia|].
  apply (update_rule (mkGrid 6 blinker_row) (1, 2)).
  unfold in_range; simpl; lia.
Defined.

(** The rule is stated for the cells of the grid, whatever the state.
    For a pair that is not a cell of the grid the second clause can fail:
    on size 5 with the on cells [(0,4), (0,0), (0,1)], the pair [(-1, 0)]
    is off and [on_neighbours] gives it three on neighbours, but it is the
    neighbour of no on cell, so the second loop never meets it. *)
Example update_rule_outside_range :
  let g := mkGrid 5 {[ (0, 4); (0, 0); (0, 1) ]} in
  on_count g (-1, 0) = Some 3 ∧
  ((-1, 0) ∉ on_cells g) ∧
  ((-1, 0) ∉ on_cells (after_update g)).
Proof. repeat split; by vm_compute. Qed.


(** ** Neighbours of the corner *)

(** Rewrites the remainders whose value is forced by the bounds at hand. *)
Ltac wrap :=
  repeat match goal with
  | |- context [?a mod ?n] =>
      first [ rewrite (Z.mod_small a n) by lia
            | rewrite (mod_minus_one a n) by lia
            | rewrite (mod_wrap_up a n) by lia ]
  | H : context [?a mod ?n] |- _ =>
      first [ rewrite (Z.mod_small a n) in H by lia
            | rewrite (mod_minus_one a n) in H by lia
            | rewrite (mod_wrap_up a n) in H by lia ]
  end.

(** Solves [x ∉ l] for an explicit list of pairs of integers. *)
Ltac pair_notin :=
  rewrite ?not_elem_of_cons; repeat split;
  try apply not_elem_of_nil; intros [=]; lia.

Ltac pair_nodup :=
  repeat (apply NoDup_cons_2; [pair_notin|]); apply NoDup_nil_2.

Lemma nbr_set_corner n : 3 <= n → nbr_set n (0, 0) = list_to_set (corner_nbrs n).
Proof.
  intros Hn. apply set_eq. intros [a b].
  rewrite elem_of_nbr_set by lia. rewrite elem_of_list_to_set.
  unfold is_nbr, corner_nbrs. cbn [fst snd]. wrap.
  rewrite !elem_of_cons, elem_of_nil. split.
  - intros (Hne & [-> | [-> | ->]] & [-> | [-> | ->]]); try lia; auto 10.
  - intros H. repeat destruct H as [[= -> ->]|H]; [lia..|done].
Qed.

Lemma corner_nbrs_NoDup n : 3 <= n → NoDup (corner_nbrs n).
Proof. intros Hn. unfold corner_nbrs. pair_nodup. Qed.

(** C2. On a grid of size [N >= 3], [neighbours((0, 0))] returns a set that
    contains [(N-1, N-1)], [(N-1, 0)], [(0, N-1)] and the five other cells
    at offsets [-1, 0, 1], does not contain [(0, 0)], and has exactly 8
    elements. *)
Theorem neighbours_corner (g : Grid) :
  3 <= size g →
  ∃ S, neighbours g (0, 0) = Some S ∧
    (size g - 1, size g - 1) ∈ S ∧ (size g - 1, 0) ∈ S ∧
    (0, size g - 1) ∈ S ∧
    (size g - 1, 1) ∈ S ∧ (0, 1) ∈ S ∧ (1, size g - 1) ∈ S ∧
    (1, 0) ∈ S ∧ (1, 1) ∈ S ∧
    ((0, 0) ∉ S) ∧ len S = 8.
Proof.
  intros Hn. rewrite neighbours_Some by lia.
  eexists. split; [reflexivity|].
  rewrite nbr_set_corner by done.
  repeat split;
    try (apply elem_of_list_to_set; unfold corner_nbrs;
         rewrite !elem_of_cons; auto 10; fail).
  - rewrite elem_of_list_to_set. unfold corner_nbrs. pair_notin.
  - unfold len. by rewrite size_list_to_set by by apply corner_nbrs_NoDup.
Qed.

Lemma neighbours_corner_witness :
  3 <= size (init 4) ∧
  ∃ S, neighbours (init 4) (0, 0) = Some S ∧
    (3, 3) ∈ S ∧ (3, 0) ∈ S ∧ (0, 3) ∈ S ∧
    (3, 1) ∈ S ∧ (0, 1) ∈ S ∧ (1, 3) ∈ S ∧ (1, 0) ∈ S ∧ (1, 1) ∈ S ∧
    ((0, 0) ∉ S) ∧ len S = 8.
Proof.
  split; [simpl; lia|].
  apply (neighbours_corner (init 4)). simpl. lia.
Defined.

(** ** The range invariant *)

Section Invariant.
Variable g : Grid.
Hypothesis size_pos : 1 <= size g.

Lemma neighbours_in_range x :
  in_range g x →
  ∃ S, neighbours g x = Some S ∧ ∀ y, y ∈ S → in_range g y.
Proof.
  intros [Hr Hc]. rewrite neighbours_Some by lia.
  eexists. split; [reflexivity|]. intros y Hy.
  apply elem_of_nbr_set in Hy; [|lia].
  by apply (is_nbr_in_range (size g) x y).
Qed.

Lemma update_valid :
  valid g → ∃ g', update g = Some g' ∧ valid g'.
Proof.
  intros Hv. destruct (update_Some g) as (new & -> & Hnew); [lia|].
  eexists. split; [reflexivity|]. intros y Hy. cbn [on_cells] in Hy.
  apply Hnew in Hy as [[Hy _]|(_ & (x & Hx & Hxy) & _)].
  - by apply Hv.
  - destruct (Hv x Hx) as [Hr Hc].
    by apply (is_nbr_in_range (size g) x y).
Qed.

Lemma turn_off_valid cells : valid g → valid (turn_off g cells).
Proof.
  intros Hv y Hy. cbn [turn_off on_cells] in Hy.
  apply elem_of_difference in Hy as [Hy _]. by apply Hv.
Qed.

Lemma turn_on_valid cells :
  valid g → (∀ x, x ∈ cells → in_range g x) → valid (turn_on g cells).
Proof.
  intros Hv Hcells y Hy. cbn [turn_on on_cells] in Hy.
  apply elem_of_union in Hy as [Hy|Hy%elem_of_list_to_set].
  - by apply Hv.
  - by apply Hcells.
Qed.
End Invariant.

(** C5. On a grid of size at least 1 whose on cells are all in range, the
    on cells are still all in range after [update] (which returns), after
    turning off any cells, and after turning on cells that are in range;
    and [neighbours] of a cell in range returns cells in range only. *)
Theorem in_range_preserved (g : Grid) :
  1 <= size g → valid g →
  (∃ g', update g = Some g' ∧ valid g') ∧
  (∀ cells, valid (turn_off g cells)) ∧
  (∀ cells, (∀ x, x ∈ cells → in_range g x) → valid (turn_on g cells)) ∧
  (∀ x, in_range g x →
     ∃ S, neighbours g x = Some S ∧ ∀ y, y ∈ S → in_range g y).
Proof.
  intros Hn Hv. split; [|split; [|split]].
  - by apply update_valid.
  - intros cells. by apply turn_off_valid.
  - intros cells Hcells. by apply turn_on_valid.
  - intros x. by apply neighbours_in_range.
Qed.

Lemma blinker_valid : valid (mkGrid 6 blinker_row).
Proof.
  intros [r c]. cbn [on_cells]. rewrite blinker_row_list, elem_of_list_to_set.
  rewrite !elem_of_cons, elem_of_nil. unfold in_range. cbn [size fst snd].
  intros [[= -> ->]|[[= -> ->]|[[= -> ->]|[]]]]; lia.
Qed.

Lemma in_range_preserved_witness :
  let g := mkGrid 6 blinker_row in
  1 <= size g ∧ valid g ∧
  (∃ g', update g = Some g' ∧ valid g') ∧
  (∀ cells, valid (turn_off g cells)) ∧
  (∀ cells, (∀ x, x ∈ cells → in_range g x) → valid (turn_on g cells)) ∧
  (∀ x, in_range g x →
     ∃ S, neighbours g x = Some S ∧ ∀ y, y ∈ S → in_range g y).
Proof.
  split; [simpl; lia|]. split; [exact blinker_valid|].
  apply (in_range_preserved (mkGrid 6 blinker_row));
    [simpl; lia|exact blinker_valid].
Defined.


(** ** Small grids *)

(** The cells of a grid of size 1 and of size 2. *)
Lemma in_range_1 g x : size g = 1 → in_range g x → x = (0, 0).
Proof. destruct x as [r c]. intros Hn [Hr Hc]. simpl in *. f_equal; lia. Qed.

Lemma in_range_2 g x :
  size g = 2 → in_range g x →
  x = (0, 0) ∨ x = (0, 1) ∨ x = (1, 0) ∨ x = (1, 1).
Proof.
  destruct x as [r c]. intros Hn [Hr Hc]. simpl in *.
  assert (r = 0 ∨ r = 1) as [-> | ->] by lia;
    assert (c = 0 ∨ c = 1) as [-> | ->] by lia; auto.
Qed.

Lemma nbr_set_1 : nbr_set 1 (0, 0) = ∅.
Proof. by vm_compute. Qed.

Lemma nbr_set_2 x :
  x ∈ [(0, 0); (0, 1); (1, 0); (1, 1)] → len (nbr_set 2 x) = 3.
Proof.
  rewrite !elem_of_cons, elem_of_nil.
  intros [-> | [-> | [-> | [-> | []]]]]; by vm_compute.
Qed.

(** C6. On a grid of size 1 or 2, [neighbours] of a cell in range returns a
    set that does not contain the cell and has fewer than 8 elements. *)
Theorem neighbours_small (g : Grid) (x : cell) :
  size g = 1 ∨ size g = 2 → in_range g x →
  ∃ S, neighbours g x = Some S ∧ (x ∉ S) ∧ len S < 8.
Proof.
  intros Hn Hx. rewrite neighbours_Some by lia.
  eexists. split; [reflexivity|]. split.
  - rewrite elem_of_nbr_set by lia. apply is_nbr_irrefl.
  - destruct Hn as [Hn|Hn]; rewrite Hn.
    + rewrite (in_range_1 g x Hn Hx), nbr_set_1. by vm_compute.
    + rewrite nbr_set_2; [lia|].
      rewrite !elem_of_cons. destruct (in_range_2 g x Hn Hx); tauto.
Qed.

Lemma neighbours_small_witness :
  (size (init 2) = 1 ∨ size (init 2) = 2) ∧ in_range (init 2) (1, 0) ∧
  ∃ S, neighbours (init 2) (1, 0) = Some S ∧ ((1, 0) ∉ S) ∧ len S < 8.
Proof.
  split; [right; reflexivity|]. split; [unfold in_range; simpl; lia|].
  apply (neighbours_small (init 2) (1, 0));
    [right; reflexivity|unfold in_range; simpl; lia].
Defined.


(** The exact numbers: none on size 1, three on size 2. *)
Lemma neighbours_small_len (g : Grid) (x : cell) :
  in_range g x →
  (size g = 1 → len <$> neighbours g x = Some 0) ∧
  (size g = 2 → len <$> neighbours g x = Some 3).
Proof.
  intros Hx. split; intros Hn; rewrite neighbours_Some by lia; rewrite Hn; simpl.
  - by rewrite (in_range_1 g x Hn Hx), nbr_set_1.
  - rewrite nbr_set_2; [done|].
    rewrite !elem_of_cons. destruct (in_range_2 g x Hn Hx); tauto.
Qed.

(** C7. [update] on a grid whose [on_cells] is empty returns and leaves
    [on_cells] empty, whatever the size. *)
Theorem update_empty_fixed (g : Grid) :
  on_cells g = ∅ →
  ∃ g', update g = Some g' ∧ on_cells g' = ∅ ∧ g' = g.
Proof.
  intros He. exists g. split; [by apply update_empty|done].
Qed.

Lemma update_empty_fixed_witness :
  on_cells (init 3) = ∅ ∧
  ∃ g', update (init 3) = Some g' ∧ on_cells g' = ∅ ∧ g' = init 3.
Proof.
  split; [reflexivity|]. apply (update_empty_fixed (init 3)). reflexivity.
Defined.


(** ** Turning cells on and off *)

(** C8. [turn_on] is the union of [on_cells] with the given cells and
    [turn_off] the difference; so turning on cells that are on, or turning
    off cells that are off, changes nothing. *)
Theorem turn_on_off_idempotent (g : Grid) (cells : list cell) (x : cell) :
  (x ∈ on_cells g → turn_on g [x] = g) ∧
  (x ∉ on_cells g → turn_off g [x] = g) ∧
  (∀ y, y ∈ on_cells (turn_on g cells) ↔ y ∈ on_cells g ∨ y ∈ cells) ∧
  (∀ y, y ∈ on_cells (turn_off g cells) ↔ y ∈ on_cells g ∧ y ∉ cells) ∧
  ((∀ y, y ∈ cells → y ∈ on_cells g) → turn_on g cells = g) ∧
  ((∀ y, y ∈ cells → y ∉ on_cells g) → turn_off g cells = g) ∧
  turn_on (turn_on g cells) cells = turn_on g cells ∧
  turn_off (turn_off g cells) cells = turn_off g cells.
Proof.
  destruct g as [n on]. unfold turn_on, turn_off. cbn [size on_cells].
  split; [|split; [|split; [|split; [|split; [|split; [|split]]]]]].
  - intros H. f_equal. set_solver.
  - intros H. f_equal. set_solver.
  - intros y. by rewrite elem_of_union, elem_of_list_to_set.
  - intros y. by rewrite elem_of_difference, elem_of_list_to_set.
  - intros H. f_equal. apply set_eq. intros y.
    rewrite elem_of_union, elem_of_list_to_set. naive_solver.
  - intros H. f_equal. apply set_eq. intros y.
    rewrite elem_of_difference, elem_of_list_to_set. naive_solver.
  - f_equal. set_solver.
  - f_equal. set_solver.
Qed.

Lemma turn_on_off_idempotent_witness :
  let g := mkGrid 6 blinker_row in
  (2, 2) ∈ on_cells g ∧ turn_on g [(2, 2)] = g ∧
  ((0, 0) ∉ on_cells g) ∧ turn_off (turn_off g [(2, 2)]) [(2, 2)] = turn_off g [(2, 2)].
Proof.
  pose proof (turn_on_off_idempotent (mkGrid 6 blinker_row) [(2, 2)] (2, 2))
    as (Hon & _ & _ & _ & _ & _ & _ & Hoff).
  assert ((2, 2) ∈ blinker_row) as Hin by (by vm_compute).
  split; [exact Hin|]. split; [exact (Hon Hin)|].
  split; [by vm_compute|]. exact Hoff.
Defined.


(** C9. [turn_on], [turn_off] and [update] leave [size] as it was; a call
    of [update] either raises, on a grid of size 0, or returns a grid of the
    same size. *)
Theorem size_fixed (g : Grid) (cells : list cell) :
  size (turn_on g cells) = size g ∧
  size (turn_off g cells) = size g ∧
  size (after_update g) = size g ∧
  ((update g = None ∧ size g = 0) ∨
   (∃ g', update g = Some g' ∧ size g' = size g)).
Proof.
  split; [done|]. split; [done|].
  assert ((update g = None ∧ size g = 0) ∨
          (∃ g', update g = Some g' ∧ size g' = size g)) as H.
  { destruct (decide (size g = 0)) as [Hn|Hn].
    - destruct (decide (on_cells g = ∅)) as [He|He].
      + right. exists g. split; [by apply update_empty|done].
      + left. split; [by apply update_None|done].
    - right. destruct (update_Some g Hn) as (new & -> & _). by eexists. }
  split; [|done]. unfold after_update.
  destruct H as [[-> _]|(g' & -> & ?)]; done.
Qed.

(** C10. On a grid of size 1, [neighbours((0, 0))] is empty, and [update]
    from any state in range leaves no cell on. *)
Theorem update_size_one (g : Grid) :
  size g = 1 →
  neighbours g (0, 0) = Some ∅ ∧
  (valid g → ∃ g', update g = Some g' ∧ on_cells g' = ∅).
Proof.
  intros Hn. split.
  { rewrite neighbours_Some by lia. by rewrite Hn, nbr_set_1. }
  intros Hv. destruct (update_Some g) as (new & -> & Hnew); [lia|].
  eexists. split; [reflexivity|]. cbn [on_cells].
  apply set_eq. intros y. rewrite Hnew, elem_of_empty. split; [|done].
  intros [[Hy Hc]|(_ & (x & Hx & Hxy) & _)].
  - rewrite (in_range_1 g y Hn (Hv y Hy)) in Hc.
    unfold count in Hc. rewrite Hn, nbr_set_1 in Hc.
    rewrite (right_absorb_L ∅ (∩)) in Hc. vm_compute in Hc.
    destruct Hc; done.
  - rewrite (in_range_1 g x Hn (Hv x Hx)), Hn in Hxy.
    apply elem_of_nbr_set in Hxy; [|lia]. by rewrite nbr_set_1 in Hxy.
Qed.

Lemma update_size_one_witness :
  let g := mkGrid 1 {[ (0, 0) ]} in
  size g = 1 ∧ valid g ∧
  neighbours g (0, 0) = Some ∅ ∧
  ∃ g', update g = Some g' ∧ on_cells g' = ∅.
Proof.
  assert (valid (mkGrid 1 {[ (0, 0) ]})) as Hv.
  { intros x Hx. cbn [on_cells] in Hx. apply elem_of_singleton in Hx as ->.
    unfold in_range; simpl; lia. }
  destruct (update_size_one (mkGrid 1 {[ (0, 0) ]}) eq_refl) as [Hnb Hup].
  split; [reflexivity|]. split; [exact Hv|]. split; [exact Hnb|].
  exact (Hup Hv).
Defined.


(** ** Patterns on a grid of any size

    The patterns are given by the list of their cells; the size of the grid
    stays a variable, so the remainders are settled by [wrap]. *)

Lemma count_list n (l : list cell) x :
  n ≠ 0 → NoDup l →
  count (mkGrid n (list_to_set l)) x =
  Z.of_nat (length (filter (is_nbr n x) l)).
Proof.
  intros Hn Hl. unfold count, len. cbn [size on_cells]. f_equal.
  rewrite <- (size_list_to_set (C:=gset cell) (filter (is_nbr n x) l))
    by by apply NoDup_filter.
  f_equal. apply set_eq. intros y.
  rewrite elem_of_intersection, !elem_of_list_to_set, list_elem_of_filter,
    elem_of_nbr_set by done.
  tauto.
Qed.

(** An off cell in range with three on neighbours is next to an on cell, so
    the second loop of [update] meets it. *)
Lemma born_candidate g y :
  in_range g y → count g y = 3 →
  ∃ x, x ∈ on_cells g ∧ is_nbr (size g) x y.
Proof.
  intros [Hr Hc] H3. assert (size g ≠ 0) as Hn by lia.
  destruct (len_pos_elem_of (on_cells g ∩ nbr_set (size g) y)) as [x Hx].
  { fold (count g y). lia. }
  apply elem_of_intersection in Hx as [Hx1 Hx2].
  apply elem_of_nbr_set in Hx2; [|done].
  exists x. split; [done|]. by apply is_nbr_sym.
Qed.

(** Membership of a pair in an explicit list, up to arithmetic. *)
Ltac in_list :=
  solve [ rewrite ?elem_of_cons; repeat first [ left; f_equal; lia | right ] ].

Ltac not_in_list :=
  let H := fresh in
  intros H; repeat (destruct H as [H|H]; [injection H; intros; lia|]); exact H.

(** Case analysis on which cells of the pattern are neighbours of the cell
    at hand; the cases that the bounds exclude are closed on the way. *)
Ltac nbr_cases :=
  repeat match goal with
  | H : context [decide (is_nbr ?n ?x ?y)] |- _ =>
      let Hd := fresh "Hd" in
      destruct (decide (is_nbr n x y)) as [Hd|Hd];
      unfold is_nbr in Hd; cbn [fst snd] in Hd; wrap;
      try (exfalso; lia)
  | |- context [decide (is_nbr ?n ?x ?y)] =>
      let Hd := fresh "Hd" in
      destruct (decide (is_nbr n x y)) as [Hd|Hd];
      unfold is_nbr in Hd; cbn [fst snd] in Hd; wrap;
      try (exfalso; lia)
  end.

(** [count] of an explicit pattern at an explicit cell, in the goal. *)
Ltac count_goal :=
  rewrite count_list by (lia || pair_nodup);
  rewrite ?filter_cons, ?filter_nil; nbr_cases; cbn [length]; lia.

(** Runs [tac] with [H : x = c] turned into a substitution, for every cell
    [c] of the list that [H] ranges over. *)
Ltac each_cell H tac :=
  lazymatch type of H with
  | _ ∨ _ => destruct H as [H|H]; [injection H as -> ->; tac | each_cell H tac]
  | False => destruct H
  end.

(** One generation of an explicit pattern: every cell of the old pattern and
    every neighbour of one is examined for the inclusion of the new
    generation in the expected one, and every expected cell is shown to
    survive or to be born. *)
Ltac pattern_step :=
  lazymatch goal with
  | |- update (mkGrid ?n (list_to_set ?l)) = Some (mkGrid ?n (list_to_set _)) =>
      let new := fresh "new" in
      let Hnew := fresh "Hnew" in
      destruct (update_Some (mkGrid n (list_to_set l)))
        as (new & -> & Hnew); [simpl; lia|];
      cbn [size on_cells] in *; do 2 f_equal; apply set_eq; intros [? ?];
      rewrite Hnew; clear Hnew; rewrite !elem_of_list_to_set; split;
      [ intros [[Hin Hc]|(Hout & ([? ?] & Hx & Hxy) & Hc)];
        rewrite count_list in Hc by (lia || pair_nodup);
        rewrite ?filter_cons, ?filter_nil in Hc;
        [ rewrite !elem_of_cons, elem_of_nil in Hin;
          each_cell Hin
            ltac:(nbr_cases; cbn [length] in Hc; first [lia | in_list])
        | rewrite elem_of_list_to_set, !elem_of_cons, elem_of_nil in Hx;
          unfold is_nbr in Hxy; cbn [fst snd] in Hxy;
          each_cell Hx
            ltac:(wrap;
                  destruct Hxy as (Hne & [-> | [-> | ->]] & [-> | [-> | ->]]);
                  nbr_cases; cbn [length] in Hc; first [lia | in_list]) ]
      | rewrite !elem_of_cons, elem_of_nil;
        let H := fresh "H" in
        intros H;
        each_cell H
          ltac:(first
            [ left; split; [in_list|]; count_goal
            | right; split; [not_in_list|];
              match goal with
              | |- _ ∧ ?c = 3 =>
                  let H3 := fresh "H3" in
                  assert (c = 3) as H3 by count_goal;
                  split; [|exact H3];
                  apply (born_candidate (mkGrid n _) _); [|exact H3];
                  unfold in_range; simpl; lia
              end ]) ]
  end.

Lemma blinker_row_step n :
  6 <= n → update (mkGrid n blinker_row) = Some (mkGrid n blinker_col).
Proof.
  intros Hn. rewrite blinker_row_list, blinker_col_list. pattern_step.
Qed.

Lemma blinker_col_step n :
  6 <= n → update (mkGrid n blinker_col) = Some (mkGrid n blinker_row).
Proof.
  intros Hn. rewrite blinker_row_list, blinker_col_list. pattern_step.
Qed.

Lemma block_step n :
  5 <= n → update (mkGrid n block) = Some (mkGrid n block).
Proof.
  intros Hn. rewrite block_list. pattern_step.
Qed.

(** C3. On a grid of size at least 6 whose on cells are the row
    [(2,1), (2,2), (2,3)], one [update] gives exactly the column
    [(1,2), (2,2), (3,2)] and a second one gives back the row. *)
Theorem blinker_oscillates (g : Grid) :
  6 <= size g → on_cells g = blinker_row →
  ∃ g1 g2,
    update g = Some g1 ∧ on_cells g1 = blinker_col ∧
    update g1 = Some g2 ∧ on_cells g2 = blinker_row.
Proof.
  destruct g as [n on]. cbn [size on_cells]. intros Hn ->.
  exists (mkGrid n blinker_col), (mkGrid n blinker_row).
  by rewrite blinker_row_step, blinker_col_step.
Qed.

Lemma blinker_oscillates_witness :
  let g := mkGrid 7 blinker_row in
  6 <= size g ∧ on_cells g = blinker_row ∧
  ∃ g1 g2,
    update g = Some g1 ∧ on_cells g1 = blinker_col ∧
    update g1 = Some g2 ∧ on_cells g2 = blinker_row.
Proof.
  split; [simpl; lia|]. split; [reflexivity|].
  apply (blinker_oscillates (mkGrid 7 blinker_row)); [simpl; lia|reflexivity].
Defined.


(** C4. On a grid of size at least 5 whose on cells are the block
    [(1,1), (1,2), (2,1), (2,2)], [update] leaves the same four cells on. *)
Theorem block_still (g : Grid) :
  5 <= size g → on_cells g = block →
  ∃ g', update g = Some g' ∧ on_cells g' = block.
Proof.
  destruct g as [n on]. cbn [size on_cells]. intros Hn ->.
  exists (mkGrid n block). by rewrite block_step.
Qed.

Lemma block_still_witness :
  let g := mkGrid 5 block in
  5 <= size g ∧ on_cells g = block ∧
  ∃ g', update g = Some g' ∧ on_cells g' = block.
Proof.
  split; [simpl; lia|]. split; [reflexivity|].
  apply (block_still (mkGrid 5 block)); [simpl; lia|reflexivity].
Defined.

(** ** The code run on small inputs *)

Example update_blinker_6 :
  update (mkGrid 6 blinker_row) = Some (mkGrid 6 blinker_col).
Proof. by vm_compute. Qed.

Example neighbours_size_2 :
  neighbours (init 2) (0, 0) = Some {[ (0, 1); (1, 0); (1, 1) ]}.
Proof. by vm_compute. Qed.

(** [%] by zero: [neighbours] raises, and so does [update] as soon as a cell
    is on. *)
Example update_size_0 :
  neighbours (init 0) (0, 0) = None ∧ update (mkGrid 0 blinker_row) = None.
Proof. split; by vm_compute. Qed.

(** * Further properties of the class *)

(** ** [neighbours] and [on_neighbours] on any cell *)

(** X1. [neighbours] and [on_neighbours] raise exactly on a grid of size 0,
    whatever the cell and the state. *)
Theorem neighbours_raises_iff (g : Grid) (x : cell) :
  (neighbours g x = None ↔ size g = 0) ∧
  (on_neighbours g x = None ↔ size g = 0).
Proof.
  assert (neighbours g x = None ↔ size g = 0) as H.
  { split; [|apply neighbours_None].
    intros HN. destruct (decide (size g = 0)) as [|Hn]; [done|].
    by rewrite neighbours_Some in HN. }
  split; [done|]. rewrite <- H. unfold on_neighbours.
  destruct (neighbours g x); done.
Qed.

Lemma len_list_to_set_le (l : list cell) :
  len (list_to_set l) <= Z.of_nat (length l).
Proof.
  unfold len. apply inj_le. induction l as [|a l IH]; [done|].
  cbn [list_to_set length]. rewrite size_union_alt, size_singleton.
  assert (list_to_set l ∖ {[a]} ⊆ (list_to_set l : gset cell)) as Hsub
    by set_solver.
  apply subseteq_size in Hsub. lia.
Qed.

Lemma nbr_set_around n x : n ≠ 0 → nbr_set n x ⊆ list_to_set (around n x).
Proof.
  intros Hn y. rewrite elem_of_nbr_set by done. rewrite elem_of_list_to_set.
  destruct x as [r c], y as [a b]. unfold is_nbr, around. cbn [fst snd].
  rewrite !elem_of_cons.
  intros (Hne & [-> | [-> | ->]] & [-> | [-> | ->]]); auto 10.
  destruct Hne; done.
Qed.

Lemma len_nbr_set_le n x : n ≠ 0 → len (nbr_set n x) <= 8.
Proof.
  intros Hn. etrans; [|apply (len_list_to_set_le (around n x))].
  unfold len. apply inj_le, subseteq_size. by apply nbr_set_around.
Qed.

(** X2. On a grid of any size but 0 (negative sizes too) and for any cell
    (in range or not), [neighbours] returns a set without the cell itself
    and with at most 8 elements, all at a row among [(r-1) % size], [r],
    [(r+1) % size] and a column among [(c-1) % size], [c], [(c+1) % size]. *)
Theorem neighbours_at_most_8 (g : Grid) (x : cell) :
  size g ≠ 0 →
  ∃ S, neighbours g x = Some S ∧ (x ∉ S) ∧ len S <= 8 ∧
    ∀ y, y ∈ S →
      y.1 ∈ [(x.1 - 1) mod size g; x.1; (x.1 + 1) mod size g] ∧
      y.2 ∈ [(x.2 - 1) mod size g; x.2; (x.2 + 1) mod size g].
Proof.
  intros Hn. rewrite neighbours_Some by done.
  eexists. split; [reflexivity|]. split; [|split].
  - rewrite elem_of_nbr_set by done. apply is_nbr_irrefl.
  - by apply len_nbr_set_le.
  - intros y (_ & Hr & Hc)%elem_of_nbr_set; [|done].
    rewrite !elem_of_cons. tauto.
Qed.

Lemma neighbours_at_most_8_witness :
  let g := init (-3) in
  size g ≠ 0 ∧
  ∃ S, neighbours g (7, -2) = Some S ∧ ((7, -2) ∉ S) ∧ len S <= 8 ∧
    ∀ y, y ∈ S →
      y.1 ∈ [(7 - 1) mod size g; 7; (7 + 1) mod size g] ∧
      y.2 ∈ [(-2 - 1) mod size g; -2; (-2 + 1) mod size g].
Proof.
  split; [simpl; lia|].
  apply (neighbours_at_most_8 (init (-3)) (7, -2)). simpl. lia.
Defined.

(** ** Moving cells around the torus *)

Section Shift.
Variables n dr dc : Z.
Hypothesis n_pos : 0 < n.
Implicit Types (x y z : cell) (a b d : Z).

Lemma mod_add_cancel a b d :
  0 <= a < n → 0 <= b < n → (a + d) mod n = (b + d) mod n → a = b.
Proof.
  intros Ha Hb Heq.
  assert (((a + d) mod n - d) mod n = a) as <-.
  { rewrite Zminus_mod_idemp_l. replace (a + d - d) with a by lia.
    by apply Z.mod_small. }
  rewrite Heq, Zminus_mod_idemp_l. replace (b + d - d) with b by lia.
  by apply Z.mod_small.
Qed.

Lemma mod_pred_shift a d : ((a + d) mod n - 1) mod n = ((a - 1) mod n + d) mod n.
Proof.
  rewrite Zminus_mod_idemp_l, Zplus_mod_idemp_l. f_equal. lia.
Qed.

Lemma mod_succ_shift a d : ((a + d) mod n + 1) mod n = ((a + 1) mod n + d) mod n.
Proof.
  rewrite !Zplus_mod_idemp_l. f_equal. lia.
Qed.

Lemma shift_in_range x :
  0 <= (shift n dr dc x).1 < n ∧ 0 <= (shift n dr dc x).2 < n.
Proof. unfold shift. cbn [fst snd]. split; apply Z.mod_pos_bound; lia. Qed.

Lemma shift_inj x y :
  0 <= x.1 < n → 0 <= x.2 < n → 0 <= y.1 < n → 0 <= y.2 < n →
  shift n dr dc x = shift n dr dc y → x = y.
Proof.
  destruct x as [r c], y as [r' c']. unfold shift. cbn [fst snd].
  intros ? ? ? ? [= H1 H2]. f_equal; by eapply mod_add_cancel.
Qed.

(** The neighbours of a moved cell are the moved neighbours. *)
Lemma shift_is_nbr x z :
  0 <= x.1 < n → 0 <= x.2 < n →
  is_nbr n (shift n dr dc x) z ↔ ∃ y, z = shift n dr dc y ∧ is_nbr n x y.
Proof.
  intros Hr Hc. destruct x as [r c], z as [a b].
  unfold is_nbr, shift. cbn [fst snd] in *. split.
  - intros (Hne & Ha & Hb).
    rewrite mod_pred_shift, mod_succ_shift in Ha.
    rewrite mod_pred_shift, mod_succ_shift in Hb.
    assert (∃ r', a = (r' + dr) mod n ∧
              (r' = (r - 1) mod n ∨ r' = r ∨ r' = (r + 1) mod n))
      as (r' & -> & Hr') by (destruct Ha as [?|[?|?]]; eauto 6).
    assert (∃ c', b = (c' + dc) mod n ∧
              (c' = (c - 1) mod n ∨ c' = c ∨ c' = (c + 1) mod n))
      as (c' & -> & Hc') by (destruct Hb as [?|[?|?]]; eauto 6).
    exists (r', c'). cbn [fst snd]. split; [done|]. split; [|done].
    destruct (decide (r' = r)) as [->|]; [|by left].
    right. intros ->. destruct Hne; done.
  - intros ([r' c'] & [= -> ->] & Hxy). cbn [fst snd] in *.
    destruct (is_nbr_in_range n (r, c) (r', c') Hr Hc Hxy) as [Hr' Hc'].
    destruct Hxy as (Hne & Ha & Hb). cbn [fst snd] in *.
    rewrite !mod_pred_shift, !mod_succ_shift. split; [|split].
    + destruct Hne as [Hne|Hne]; [left|right]; intros Heq; apply Hne;
        by eapply mod_add_cancel.
    + destruct Ha as [-> | [-> | ->]]; auto.
    + destruct Hb as [-> | [-> | ->]]; auto.
Qed.

Lemma nbr_set_shift x :
  0 <= x.1 < n → 0 <= x.2 < n →
  nbr_set n (shift n dr dc x) = set_map (shift n dr dc) (nbr_set n x).
Proof.
  intros Hr Hc. apply set_eq. intros z.
  rewrite elem_of_nbr_set, elem_of_map, shift_is_nbr by (done || lia).
  split; intros (y & -> & Hy); exists y; (split; [done|]).
  - apply elem_of_nbr_set; [lia|done].
  - apply elem_of_nbr_set in Hy; [done|lia].
Qed.
End Shift.

(** A map that is injective on a set keeps its number of elements. *)
Lemma len_set_map_inj (f : cell → cell) (X : gset cell) :
  (∀ x y, x ∈ X → y ∈ X → f x = f y → x = y) →
  len (set_map f X) = len X.
Proof.
  unfold len. intros Hinj. f_equal. revert Hinj.
  induction X as [|x X Hx IH] using set_ind_L; intros Hinj.
  - by rewrite set_map_empty.
  - rewrite set_map_union_L, set_map_singleton_L.
    rewrite !size_union, !size_singleton.
    + rewrite IH; [done|]. intros y z Hy Hz. apply Hinj; set_solver.
    + set_solver.
    + intros z ->%elem_of_singleton (y & Heq & Hy)%elem_of_map.
      apply Hinj in Heq; set_solver.
Qed.

Lemma len_nbr_set_8 n x :
  3 <= n → 0 <= x.1 < n → 0 <= x.2 < n → len (nbr_set n x) = 8.
Proof.
  intros Hn Hr Hc. destruct x as [r c]. cbn [fst snd] in *.
  assert ((r, c) = shift n r c (0, 0)) as ->.
  { unfold shift. cbn [fst snd]. by rewrite !Z.add_0_l, !Z.mod_small. }
  rewrite nbr_set_shift by (cbn [fst snd]; lia).
  rewrite len_set_map_inj.
  - rewrite nbr_set_corner by done. unfold len.
    by rewrite size_list_to_set by by apply corner_nbrs_NoDup.
  - intros y z Hy Hz.
    apply elem_of_nbr_set in Hy; [|lia]. apply elem_of_nbr_set in Hz; [|lia].
    apply is_nbr_in_range in Hy as [? ?]; [|cbn [fst snd]; lia..].
    apply is_nbr_in_range in Hz as [? ?]; [|cbn [fst snd]; lia..].
    apply shift_inj; lia.
Qed.

(** X3. On a grid of size at least 3 every cell in range has exactly 8
    neighbours. *)
Theorem neighbours_exactly_8 (g : Grid) (x : cell) :
  3 <= size g → in_range g x →
  ∃ S, neighbours g x = Some S ∧ len S = 8.
Proof.
  intros Hn [Hr Hc]. rewrite neighbours_Some by lia.
  eexists. split; [reflexivity|]. by apply len_nbr_set_8.
Qed.

Lemma neighbours_exactly_8_witness :
  3 <= size (init 3) ∧ in_range (init 3) (2, 0) ∧
  ∃ S, neighbours (init 3) (2, 0) = Some S ∧ len S = 8.
Proof.
  split; [simpl; lia|]. split; [unfold in_range; simpl; lia|].
  apply (neighbours_exactly_8 (init 3) (2, 0));
    [simpl; lia|unfold in_range; simpl; lia].
Defined.

(** X4. Between two cells in range, being a neighbour is symmetric. *)
Theorem neighbours_symmetric (g : Grid) (x y : cell) :
  in_range g x → in_range g y →
  ∃ Sx Sy, neighbours g x = Some Sx ∧ neighbours g y = Some Sy ∧
    (y ∈ Sx ↔ x ∈ Sy).
Proof.
  intros [Hxr Hxc] [Hyr Hyc]. rewrite !neighbours_Some by lia.
  eexists _, _. split; [reflexivity|]. split; [reflexivity|].
  rewrite !elem_of_nbr_set by lia. split; by apply is_nbr_sym.
Qed.

Lemma neighbours_symmetric_witness :
  in_range (init 4) (0, 3) ∧ in_range (init 4) (3, 0) ∧
  ∃ Sx Sy, neighbours (init 4) (0, 3) = Some Sx ∧
    neighbours (init 4) (3, 0) = Some Sy ∧ ((3, 0) ∈ Sx ↔ (0, 3) ∈ Sy).
Proof.
  split; [unfold in_range; simpl; lia|]. split; [unfold in_range; simpl; lia|].
  apply (neighbours_symmetric (init 4) (0, 3) (3, 0));
    unfold in_range; simpl; lia.
Defined.

Lemma mod_pred_ne a n : 2 <= n → (a - 1) mod n ≠ a.
Proof.
  intros Hn Heq.
  pose proof (Z.mod_pos_bound (a - 1) n ltac:(lia)) as Hb. rewrite Heq in Hb.
  destruct (decide (a = 0)) as [->|].
  - rewrite mod_minus_one in Heq; lia.
  - rewrite Z.mod_small in Heq; lia.
Qed.

(** X5. The offsets are wrapped, the coordinates of the cell are not: on a
    grid of size at least 2, [neighbours] returns cells in range only if,
    and only if, the cell is in range. *)
Theorem neighbours_in_range_iff (g : Grid) (x : cell) :
  2 <= size g →
  ∃ S, neighbours g x = Some S ∧
    ((∀ y, y ∈ S → in_range g y) ↔ in_range g x).
Proof.
  intros Hn. rewrite neighbours_Some by lia.
  eexists. split; [reflexivity|]. split.
  - intros Hall. destruct x as [r c].
    assert (in_range g (r, (c - 1) mod size g)) as [Hr _].
    { apply Hall, elem_of_nbr_set; [lia|]. unfold is_nbr. cbn [fst snd].
      split; [right; by apply mod_pred_ne|]. split; auto. }
    assert (in_range g ((r - 1) mod size g, c)) as [_ Hc].
    { apply Hall, elem_of_nbr_set; [lia|]. unfold is_nbr. cbn [fst snd].
      split; [left; by apply mod_pred_ne|]. split; auto. }
    by split.
  - intros [Hr Hc] y Hy. apply elem_of_nbr_set in Hy; [|lia].
    by apply (is_nbr_in_range (size g) x y).
Qed.

Lemma neighbours_in_range_iff_witness :
  2 <= size (init 5) ∧
  ∃ S, neighbours (init 5) (7, 0) = Some S ∧
    ((∀ y, y ∈ S → in_range (init 5) y) ↔ in_range (init 5) (7, 0)).
Proof.
  split; [simpl; lia|].
  apply (neighbours_in_range_iff (init 5) (7, 0)). simpl. lia.
Defined.

(** ** Counting on neighbours *)

Lemma count_nonneg g x : 0 <= count g x.
Proof. unfold count, len. lia. Qed.

Lemma count_le_8 g x : size g ≠ 0 → count g x <= 8.
Proof.
  intros Hn. etrans; [|by apply (len_nbr_set_le (size g) x)].
  unfold count, len. apply inj_le, subseteq_size. set_solver.
Qed.

Lemma count_le_on g x : size g ≠ 0 → count g x <= len (on_cells g).
Proof.
  intros Hn. unfold count, len. apply inj_le, subseteq_size. set_solver.
Qed.

(** An on cell is not counted among its own on neighbours. *)
Lemma count_lt_on g x :
  size g ≠ 0 → x ∈ on_cells g → count g x < len (on_cells g).
Proof.
  intros Hn Hx. unfold count, len.
  assert (on_cells g ∩ nbr_set (size g) x ⊆ on_cells g ∖ {[x]}) as Hsub.
  { intros y [Hy Hxy]%elem_of_intersection.
    apply elem_of_difference. split; [done|]. intros ->%elem_of_singleton.
    apply elem_of_nbr_set in Hxy; [|done]. by apply is_nbr_irrefl in Hxy. }
  apply subseteq_size in Hsub.
  rewrite (size_difference (on_cells g) {[x]}) in Hsub by set_solver.
  rewrite size_singleton in Hsub.
  assert (base.size (on_cells g) ≠ 0%nat).
  { apply size_non_empty_iff. set_solver. }
  lia.
Qed.

(** X6. [on_neighbours] returns a subset of [on_cells] that does not hold
    the cell and has at most 8 elements; the number is below [len(on_cells)]
    when the cell is on. *)
Theorem on_neighbours_bounds (g : Grid) (x : cell) :
  size g ≠ 0 →
  ∃ S, on_neighbours g x = Some S ∧
    S ⊆ on_cells g ∧ (x ∉ S) ∧ 0 <= len S <= 8 ∧
    len S <= len (on_cells g) ∧
    (x ∈ on_cells g → len S < len (on_cells g)).
Proof.
  intros Hn. rewrite on_neighbours_Some by done.
  eexists. split; [reflexivity|]. fold (count g x).
  split; [set_solver|]. split.
  { intros [_ Hx]%elem_of_intersection.
    apply elem_of_nbr_set in Hx; [|done]. by apply is_nbr_irrefl in Hx. }
  split; [split; [apply count_nonneg|by apply count_le_8]|].
  split; [by apply count_le_on|]. by apply count_lt_on.
Qed.

Lemma on_neighbours_bounds_witness :
  let g := mkGrid 6 blinker_row in
  size g ≠ 0 ∧
  ∃ S, on_neighbours g (2, 2) = Some S ∧
    S ⊆ on_cells g ∧ ((2, 2) ∉ S) ∧ 0 <= len S <= 8 ∧
    len S <= len (on_cells g) ∧
    ((2, 2) ∈ on_cells g → len S < len (on_cells g)).
Proof.
  split; [simpl; lia|].
  apply (on_neighbours_bounds (mkGrid 6 blinker_row) (2, 2)). simpl. lia.
Defined.

(** ** [update] on any state *)

(** X7. [update] raises exactly when the size is 0 and some cell is on. *)
Theorem update_raises_iff (g : Grid) :
  update g = None ↔ size g = 0 ∧ on_cells g ≠ ∅.
Proof.
  split.
  - intros HN. destruct (decide (size g = 0)) as [Hn|Hn].
    + split; [done|]. intros He. by rewrite update_empty in HN.
    + destruct (update_Some g Hn) as (new & Hup & _). congruence.
  - intros [Hn He]. by apply update_None.
Qed.

(** X8. Whatever the state, a cell that is on after [update] was on or is
    returned by [neighbours] on a cell that was on; and a cell that was on
    and is still on had 2 or 3 on neighbours. *)
Theorem update_local (g : Grid) :
  size g ≠ 0 →
  ∃ g', update g = Some g' ∧
    ∀ y, y ∈ on_cells g' →
      (y ∈ on_cells g ∧ (on_count g y = Some 2 ∨ on_count g y = Some 3)) ∨
      ((y ∉ on_cells g) ∧ on_count g y = Some 3 ∧
       ∃ x S, x ∈ on_cells g ∧ neighbours g x = Some S ∧ y ∈ S).
Proof.
  intros Hn. destruct (update_Some g Hn) as (new & -> & Hnew).
  eexists. split; [reflexivity|]. cbn [on_cells]. intros y Hy.
  rewrite !on_count_Some by done.
  apply Hnew in Hy as [[? [-> | ->]]|(? & (x & Hx & Hxy) & ->)]; auto.
  right. split; [done|]. split; [done|].
  exists x, (nbr_set (size g) x). split; [done|].
  split; [by apply neighbours_Some|]. by apply elem_of_nbr_set.
Qed.

Lemma update_local_witness :
  let g := mkGrid 6 blinker_row in
  size g ≠ 0 ∧
  ∃ g', update g = Some g' ∧
    ∀ y, y ∈ on_cells g' →
      (y ∈ on_cells g ∧ (on_count g y = Some 2 ∨ on_count g y = Some 3)) ∨
      ((y ∉ on_cells g) ∧ on_count g y = Some 3 ∧
       ∃ x S, x ∈ on_cells g ∧ neighbours g x = Some S ∧ y ∈ S).
Proof.
  split; [simpl; lia|].
  apply (update_local (mkGrid 6 blinker_row)). simpl. lia.
Defined.

(** X9. With fewer than three cells on, no cell is on after [update]:
    surviving takes two other on cells and a birth takes three. *)
Theorem update_sparse_dies (g : Grid) :
  size g ≠ 0 → len (on_cells g) < 3 →
  ∃ g', update g = Some g' ∧ on_cells g' = ∅.
Proof.
  intros Hn Hlen. destruct (update_Some g Hn) as (new & -> & Hnew).
  eexists. split; [reflexivity|]. cbn [on_cells].
  apply set_eq. intros y. rewrite Hnew, elem_of_empty. split; [|done].
  intros [[Hy Hc]|(_ & _ & Hc)].
  - pose proof (count_lt_on g y Hn Hy). lia.
  - pose proof (count_le_on g y Hn). lia.
Qed.

Lemma update_sparse_dies_witness :
  let g := mkGrid 4 {[ (0, 0); (0, 1) ]} in
  size g ≠ 0 ∧ len (on_cells g) < 3 ∧
  ∃ g', update g = Some g' ∧ on_cells g' = ∅.
Proof.
  split; [simpl; lia|]. split; [by vm_compute|].
  apply (update_sparse_dies (mkGrid 4 {[ (0, 0); (0, 1) ]}));
    [simpl; lia|by vm_compute].
Defined.



(** On size 2 the four wrapped positions collapse to three neighbours, so the
    grid with every cell on stays as it is. *)
Example update_full_size_2 :
  let g := mkGrid 2 {[ (0, 0); (0, 1); (1, 0); (1, 1) ]} in
  update g = Some g.
Proof. by vm_compute. Qed.

(** ** Symmetries of [update] *)

(** A map [f] of the cells that is injective on a domain [D] closed under
    [neighbours], and that sends the neighbours of a cell of [D] onto the
    neighbours of its image, commutes with [update] on the states in [D]. *)
Section Symmetry.
Variable n : Z.
Variable f : cell → cell.
Variable D : cell → Prop.
Hypothesis n_ne : n ≠ 0.
Hypothesis f_inj : ∀ x y, D x → D y → f x = f y → x = y.
Hypothesis f_nbr :
  ∀ x z, D x → is_nbr n (f x) z ↔ ∃ y, z = f y ∧ is_nbr n x y.
Hypothesis D_nbr : ∀ x y, D x → is_nbr n x y → D y.
Variable X : gset cell.
Hypothesis X_D : ∀ x, x ∈ X → D x.

Lemma count_set_map y :
  D y → count (mkGrid n (set_map f X)) (f y) = count (mkGrid n X) y.
Proof.
  intros Hy. unfold count. cbn [size on_cells].
  rewrite <- (len_set_map_inj f (X ∩ nbr_set n y)).
  - f_equal. apply set_eq. intros z.
    rewrite elem_of_intersection, !elem_of_map, elem_of_nbr_set, f_nbr by done.
    split.
    + intros [(x & -> & Hx) (y' & Heq & Hy')].
      apply f_inj in Heq as ->; [|by auto|by eapply D_nbr].
      exists y'. split; [done|]. apply elem_of_intersection.
      split; [done|]. by apply elem_of_nbr_set.
    + intros (x & -> & [Hx Hxy]%elem_of_intersection).
      apply elem_of_nbr_set in Hxy; [|done]. split; eauto.
  - intros x x' [Hx _]%elem_of_intersection [Hx' _]%elem_of_intersection.
    apply f_inj; auto.
Qed.

Lemma update_set_map :
  ∃ new,
    update (mkGrid n X) = Some (mkGrid n new) ∧
    update (mkGrid n (set_map f X)) = Some (mkGrid n (set_map f new)).
Proof.
  destruct (update_Some (mkGrid n X) n_ne) as (new & HX & Hnew).
  destruct (update_Some (mkGrid n (set_map f X)) n_ne) as (new' & HfX & Hnew').
  cbn [size on_cells] in *. exists new. split; [done|].
  rewrite HfX. do 2 f_equal. apply set_eq. intros z.
  rewrite Hnew', (elem_of_map f new). split.
  - intros [[(x & -> & Hx)%elem_of_map Hc]|
            (Hz & (x' & (x & -> & Hx)%elem_of_map & Hxz) & Hc)].
    + rewrite count_set_map in Hc by auto.
      exists x. split; [done|]. apply Hnew. by left.
    + apply f_nbr in Hxz as (y & -> & Hxy); [|by auto].
      rewrite count_set_map in Hc by (by eapply D_nbr; eauto).
      exists y. split; [done|]. apply Hnew. right.
      split; [|by eauto]. intros Hy. apply Hz, elem_of_map. eauto.
  - intros (y & -> & Hy). apply Hnew in Hy as [[Hy Hc]|(Hy & (x & Hx & Hxy) & Hc)].
    + left. rewrite count_set_map by auto. split; [|done].
      apply elem_of_map. eauto.
    + right. rewrite count_set_map by (by eapply D_nbr; eauto).
      split; [|split; [|done]].
      * intros (y' & Heq & Hy')%elem_of_map.
        apply f_inj in Heq as ->;
          [done|exact (D_nbr x y (X_D x Hx) Hxy)|by apply X_D].
      * exists (f x). split; [apply elem_of_map; by eauto|].
        apply f_nbr; [by auto|]. eauto.
Qed.
End Symmetry.

(** X11. [update] commutes with the exchange of rows and columns, whatever
    the state (in range or not) on a grid of size other than 0. *)
Theorem update_transpose (g : Grid) :
  size g ≠ 0 →
  ∃ g',
    update g = Some g' ∧
    update (mkGrid (size g) (set_map transpose (on_cells g))) =
    Some (mkGrid (size g) (set_map transpose (on_cells g'))).
Proof.
  intros Hn. destruct g as [n X]. cbn [size on_cells] in *.
  destruct (update_set_map n transpose (λ _, True) Hn) with (X := X)
    as (new & HX & HfX); [| |done|done|].
  - intros [r c] [r' c'] _ _ [= -> ->]. done.
  - intros [r c] [a b] _. unfold is_nbr, transpose. cbn [fst snd]. split.
    + intros (Hne & Ha & Hb). exists (b, a). cbn [fst snd]. tauto.
    + intros ([a' b'] & [= -> ->] & Hne & Ha & Hb). cbn [fst snd] in *. tauto.
  - exists (mkGrid n new). by split.
Qed.

Lemma update_transpose_witness :
  let g := mkGrid 6 blinker_row in
  size g ≠ 0 ∧
  ∃ g',
    update g = Some g' ∧
    update (mkGrid (size g) (set_map transpose (on_cells g))) =
    Some (mkGrid (size g) (set_map transpose (on_cells g'))).
Proof.
  split; [simpl; lia|].
  apply (update_transpose (mkGrid 6 blinker_row)). simpl. lia.
Defined.

(** X12. The torus has no origin: on a state in range, moving every cell by
    [(dr, dc)] (wrapping around) and then calling [update] gives the updated
    state moved by [(dr, dc)]. *)
Theorem update_shift (g : Grid) (dr dc : Z) :
  1 <= size g → valid g →
  ∃ g',
    update g = Some g' ∧
    update (mkGrid (size g) (set_map (shift (size g) dr dc) (on_cells g))) =
    Some (mkGrid (size g) (set_map (shift (size g) dr dc) (on_cells g'))).
Proof.
  intros Hn Hv. destruct g as [n X]. cbn [size on_cells] in *.
  destruct (update_set_map n (shift n dr dc)
              (λ x, 0 <= x.1 < n ∧ 0 <= x.2 < n)) with (X := X)
    as (new & HX & HfX).
  - lia.
  - intros x y [? ?] [? ?]. apply shift_inj; lia.
  - intros x z [? ?]. apply shift_is_nbr; lia.
  - intros x y [? ?]. by apply is_nbr_in_range.
  - intros x Hx. apply (Hv x Hx).
  - exists (mkGrid n new). by split.
Qed.

Lemma update_shift_witness :
  let g := mkGrid 6 blinker_row in
  1 <= size g ∧ valid g ∧
  ∃ g',
    update g = Some g' ∧
    update (mkGrid (size g) (set_map (shift (size g) 3 4) (on_cells g))) =
    Some (mkGrid (size g) (set_map (shift (size g) 3 4) (on_cells g'))).
Proof.
  split; [simpl; lia|]. split; [exact blinker_valid|].
  apply (update_shift (mkGrid 6 blinker_row) 3 4);
    [simpl; lia|exact blinker_valid].
Defined.

(** ** Turning on and off, composed *)

(** X13. Turning off the cells just turned on gives back the grid when none
    of them was on before; in any case it is the same as turning them off,
    and turning on cells just turned off the same as turning them on. *)
Theorem turn_on_off_round_trip (g : Grid) (cells : list cell) :
  ((∀ y, y ∈ cells → y ∉ on_cells g) → turn_off (turn_on g cells) cells = g) ∧
  turn_off (turn_on g cells) cells = turn_off g cells ∧
  turn_on (turn_off g cells) cells = turn_on g cells.
Proof.
  destruct g as [n on]. unfold turn_on, turn_off. cbn [size on_cells].
  split; [|split].
  - intros H. f_equal. apply set_eq. intros y.
    rewrite elem_of_difference, elem_of_union, elem_of_list_to_set.
    naive_solver.
  - f_equal. set_solver.
  - f_equal. apply set_eq. intros y.
    rewrite !elem_of_union, elem_of_difference, elem_of_list_to_set.
    destruct (decide (y ∈ cells)); naive_solver.
Qed.

Lemma turn_on_off_round_trip_witness :
  let g := mkGrid 6 blinker_row in
  turn_off (turn_on g [(0, 0); (5, 5); (0, 0)]) [(0, 0); (5, 5); (0, 0)] = g.
Proof.
  pose proof (turn_on_off_round_trip (mkGrid 6 blinker_row)
                [(0, 0); (5, 5); (0, 0)]) as [H _].
  apply H. intros y Hy. cbn [on_cells].
  rewrite blinker_row_list, elem_of_list_to_set.
  rewrite !elem_of_cons, elem_of_nil in Hy. rewrite !elem_of_cons, elem_of_nil.
  intros Hin. repeat destruct Hy as [->|Hy]; [| | |done];
    repeat destruct Hin as [[=]|Hin]; done.
Defined.

(** X14. Only the set of the given cells matters to [turn_on] and
    [turn_off], not their order or repetitions; turning on (off) two lists
    in turn is turning on (off) their concatenation, in either order. *)
Theorem turn_on_off_lists (g : Grid) (a b : list cell) :
  ((∀ y, y ∈ a ↔ y ∈ b) → turn_on g a = turn_on g b ∧ turn_off g a = turn_off g b) ∧
  turn_on (turn_on g a) b = turn_on g (a ++ b) ∧
  turn_off (turn_off g a) b = turn_off g (a ++ b) ∧
  turn_on (turn_on g a) b = turn_on (turn_on g b) a ∧
  turn_off (turn_off g a) b = turn_off (turn_off g b) a.
Proof.
  destruct g as [n on]. unfold turn_on, turn_off. cbn [size on_cells].
  split; [|split; [|split; [|split]]].
  - intros H. assert (list_to_set a = (list_to_set b : gset cell)) as ->; [|done].
    apply set_eq. intros y. by rewrite !elem_of_list_to_set.
  - f_equal. rewrite list_to_set_app_L. set_solver.
  - f_equal. rewrite list_to_set_app_L. set_solver.
  - f_equal. set_solver.
  - f_equal. set_solver.
Qed.

Lemma turn_on_off_lists_witness :
  let g := mkGrid 6 blinker_row in
  turn_on g [(0, 0); (1, 1); (0, 0)] = turn_on g [(1, 1); (0, 0)] ∧
  turn_off g [(0, 0); (1, 1); (0, 0)] = turn_off g [(1, 1); (0, 0)].
Proof.
  pose proof (turn_on_off_lists (mkGrid 6 blinker_row)
                [(0, 0); (1, 1); (0, 0)] [(1, 1); (0, 0)]) as [H _].
  apply H. intros y. rewrite !elem_of_cons, elem_of_nil. tauto.
Defined.

(** ** The image built by [_display] *)

Section Image.
Variable g : Grid.
Let s := size g.
Let n := Z.to_nat (size g).
Implicit Types (x : cell) (X : gset cell) (arr : list (list Z)).

Lemma py_index_in a :
  - s <= a < s →
  py_index n a = Some (Z.to_nat (a mod s)) ∧ (Z.to_nat (a mod s) < n)%nat.
Proof.
  intros Ha. unfold py_index. subst s n.
  assert (Z.of_nat (Z.to_nat (size g)) = size g) as -> by lia.
  destruct (decide (0 <= a < size g)).
  - rewrite Z.mod_small by lia. split; [done|lia].
  - rewrite decide_True by lia.
    assert (a mod size g = a + size g) as ->.
    { symmetry. apply (Z.mod_unique _ _ (-1)); lia. }
    split; [done|lia].
Qed.

Lemma py_index_out a : ¬ (- s <= a < s) → py_index n a = None.
Proof.
  intros Ha. unfold py_index. subst s n.
  rewrite !decide_False; [done|lia..].
Qed.

Lemma image_inv_zeros : image_inv g (zeros (size g)) ∅.
Proof.
  unfold image_inv, zeros. cbv zeta. split; [by rewrite length_replicate|].
  split.
  - intros i row [-> _]%lookup_replicate. by rewrite length_replicate.
  - intros i j Hi Hj. exists 0.
    rewrite lookup_replicate_2 by done. cbn [mbind option_bind].
    rewrite lookup_replicate_2 by done.
    split; [done|]. split; [by right|]. split; [done|].
    intros (x & Hx & _). by apply elem_of_empty in Hx.
Qed.

Lemma set_pixel_inv arr X x :
  image_inv g arr X → drawable g x →
  ∃ arr', set_pixel x (Some arr) = Some arr' ∧ image_inv g arr' ({[ x ]} ∪ X).
Proof.
  intros (Hlen & Hrows & Hpix) [Hr Hc].
  destruct (py_index_in x.1 Hr) as [Hi0 Hi0n].
  destruct (py_index_in x.2 Hc) as [Hj0 Hj0n].
  unfold s, n in *.
  set (i0 := Z.to_nat (x.1 mod size g)) in *.
  set (j0 := Z.to_nat (x.2 mod size g)) in *.
  destruct (lookup_lt_is_Some_2 arr i0) as [row Hrow]; [by rewrite Hlen|].
  pose proof (Hrows i0 row Hrow) as Hrowlen.
  unfold set_pixel. cbn [mbind option_bind].
  rewrite Hlen, Hi0. cbn [mbind option_bind].
  rewrite Hrow. cbn [mbind option_bind].
  rewrite Hrowlen, Hj0. cbn [mbind option_bind].
  eexists. split; [reflexivity|]. split; [|split].
  - by rewrite length_insert.
  - intros i row'. rewrite list_lookup_insert. case_decide as Hd.
    + intros [= <-]. by rewrite length_insert.
    + apply Hrows.
  - intros i j Hi Hj. destruct (Hpix i j Hi Hj) as (v & Hv & Hv01 & Hv1).
    rewrite list_lookup_insert. case_decide as Hd.
    + destruct Hd as [<- _]. cbn [mbind option_bind].
      rewrite Hrow in Hv. cbn [mbind option_bind] in Hv.
      rewrite list_lookup_insert. case_decide as Hd'.
      * destruct Hd' as [<- _]. exists 1. split; [done|]. split; [by left|].
        split; [|done]. intros _. exists x. split; [set_solver|done].
      * exists v. split; [done|]. split; [done|]. rewrite Hv1.
        split; intros (y & Hy & Hyi & Hyj).
        -- exists y. split; [set_solver|done].
        -- exists y. split; [|done].
           apply elem_of_union in Hy as [->%elem_of_singleton|Hy]; [|done].
           destruct Hd'. split; [done|]. by rewrite Hrowlen.
    + exists v. split; [done|]. split; [done|]. rewrite Hv1.
      split; intros (y & Hy & Hyi & Hyj).
      * exists y. split; [set_solver|done].
      * exists y. split; [|done].
        apply elem_of_union in Hy as [->%elem_of_singleton|Hy]; [|done].
        destruct Hd. split; [done|]. by rewrite Hlen.
Qed.

Lemma set_pixel_raises arr X x :
  image_inv g arr X → ¬ drawable g x → set_pixel x (Some arr) = None.
Proof.
  intros (Hlen & Hrows & _) Hx. unfold set_pixel. cbn [mbind option_bind].
  rewrite Hlen. fold n. destruct (decide (- s <= x.1 < s)) as [Hr|Hr].
  - destruct (py_index_in x.1 Hr) as [-> Hi0n]. cbn [mbind option_bind].
    destruct (lookup_lt_is_Some_2 arr (Z.to_nat (x.1 mod s))) as [row Hrow];
      [by rewrite Hlen|].
    rewrite Hrow. cbn [mbind option_bind]. rewrite (Hrows _ _ Hrow).
    rewrite py_index_out; [done|]. intros Hc. by apply Hx.
  - by rewrite py_index_out.
Qed.

Lemma display_fold X :
  let acc := set_fold set_pixel (Some (zeros (size g))) X in
  (set_Forall (drawable g) X → ∃ arr, acc = Some arr ∧ image_inv g arr X) ∧
  (¬ set_Forall (drawable g) X → acc = None).
Proof.
  cbv zeta. revert X.
  apply (set_fold_ind_L (λ acc X,
    (set_Forall (drawable g) X → ∃ arr, acc = Some arr ∧ image_inv g arr X) ∧
    (¬ set_Forall (drawable g) X → acc = None))).
  - split.
    + intros _. exists (zeros (size g)). split; [done|apply image_inv_zeros].
    + intros H. destruct H. apply set_Forall_empty.
  - intros x X acc Hx [IHa IHb]. split.
    + intros Hall.
      pose proof (set_Forall_union_inv_1 _ _ _ Hall) as Hdx.
      pose proof (set_Forall_union_inv_2 _ _ _ Hall) as HX.
      destruct (IHa HX) as (arr & -> & Hinv).
      apply set_pixel_inv; [done|]. by apply set_Forall_singleton in Hdx.
    + intros Hbad. destruct (decide (set_Forall (drawable g) X)) as [HX|HX].
      * destruct (IHa HX) as (arr & -> & Hinv).
        apply (set_pixel_raises arr X); [done|]. intros Hdx. apply Hbad.
        apply set_Forall_union; [|done]. by apply set_Forall_singleton.
      * by rewrite (IHb HX).
Qed.
End Image.

(** X15. Building the image raises ([IndexError]) exactly when some on cell
    has a coordinate out of [-size, size); on a grid of size 0 or less, as
    soon as a cell is on. *)
Theorem display_arr_raises_iff (g : Grid) :
  display_arr g = None ↔ ∃ x, x ∈ on_cells g ∧ ¬ drawable g x.
Proof.
  destruct (display_fold g (on_cells g)) as [Ha Hb]. fold (display_arr g) in *.
  split.
  - intros HN. destruct (decide (set_Forall (drawable g) (on_cells g))) as [H|H].
    + destruct (Ha H) as (arr & Harr & _). congruence.
    + apply not_set_Forall_Exists in H; [|apply _].
      destruct H as (x & Hx & Hbad). by exists x.
  - intros (x & Hx & Hbad). apply Hb. intros H. by apply Hbad, H.
Qed.

Lemma display_arr_inv (g : Grid) :
  (∀ x, x ∈ on_cells g → drawable g x) →
  ∃ arr, display_arr g = Some arr ∧ image_inv g arr (on_cells g).
Proof. intros Hall. by destruct (display_fold g (on_cells g)) as [Ha _]; apply Ha. Qed.

(** The invariant read at coordinates instead of positions. *)
Lemma image_inv_pixel g arr X r c :
  image_inv g arr X → 0 <= r < size g → 0 <= c < size g →
  ∃ v, pixel arr r c = Some v ∧ (v = 1 ∨ v = 0) ∧
    (v = 1 ↔ ∃ x, x ∈ X ∧ x.1 mod size g = r ∧ x.2 mod size g = c).
Proof.
  intros (_ & _ & Hpix) Hr Hc.
  destruct (Hpix (Z.to_nat r) (Z.to_nat c)) as (v & Hv & Hv01 & Hv1); [lia..|].
  exists v. split; [done|]. split; [done|]. rewrite Hv1.
  split; intros (x & Hx & Hxr & Hxc); exists x; (split; [done|]).
  - pose proof (Z.mod_pos_bound (x.1) (size g) ltac:(lia)).
    pose proof (Z.mod_pos_bound (x.2) (size g) ltac:(lia)). lia.
  - by rewrite Hxr, Hxc.
Qed.

(** X16. When every on cell is drawable, the image is [size] rows of [size]
    entries, each 0 or 1, and the entry at [(r, c)] is 1 exactly when some
    on cell has row [r] and column [c] modulo [size]: a negative coordinate
    is drawn from the far edge. *)
Theorem display_arr_image (g : Grid) :
  (∀ x, x ∈ on_cells g → drawable g x) →
  ∃ arr, display_arr g = Some arr ∧
    length arr = Z.to_nat (size g) ∧
    (∀ row, row ∈ arr → length row = Z.to_nat (size g)) ∧
    ∀ r c, 0 <= r < size g → 0 <= c < size g →
      ∃ v, pixel arr r c = Some v ∧ (v = 1 ∨ v = 0) ∧
        (v = 1 ↔ ∃ x, x ∈ on_cells g ∧ x.1 mod size g = r ∧ x.2 mod size g = c).
Proof.
  intros Hall. destruct (display_arr_inv g Hall) as (arr & Harr & Hinv).
  exists arr. split; [done|].
  pose proof Hinv as (Hlen & Hrows & _). split; [done|]. split.
  - intros row (i & Hi)%list_elem_of_lookup. by eapply Hrows.
  - intros r c. by apply image_inv_pixel.
Qed.

Lemma display_arr_image_witness :
  let g := mkGrid 3 {[ (-1, 2); (0, -3) ]} in
  (∀ x, x ∈ on_cells g → drawable g x) ∧
  ∃ arr, display_arr g = Some arr ∧
    length arr = Z.to_nat (size g) ∧
    (∀ row, row ∈ arr → length row = Z.to_nat (size g)) ∧
    ∀ r c, 0 <= r < size g → 0 <= c < size g →
      ∃ v, pixel arr r c = Some v ∧ (v = 1 ∨ v = 0) ∧
        (v = 1 ↔ ∃ x, x ∈ on_cells g ∧ x.1 mod size g = r ∧ x.2 mod size g = c).
Proof.
  assert (∀ x, x ∈ on_cells (mkGrid 3 {[ (-1, 2); (0, -3) ]}) →
               drawable (mkGrid 3 {[ (-1, 2); (0, -3) ]}) x) as Hall.
  { intros x Hx. cbn [on_cells] in Hx. unfold drawable. cbn [size].
    apply elem_of_union in Hx as [->%elem_of_singleton| ->%elem_of_singleton];
      cbn [fst snd]; lia. }
  split; [exact Hall|].
  exact (display_arr_image (mkGrid 3 {[ (-1, 2); (0, -3) ]}) Hall).
Defined.

Example display_arr_wraps :
  display_arr (mkGrid 3 {[ (-1, 2); (0, -3) ]}) =
  Some [[1; 0; 0]; [0; 0; 0]; [0; 0; 1]].
Proof. by vm_compute. Qed.

Lemma valid_drawable g x : in_range g x → drawable g x.
Proof. unfold in_range, drawable. lia. Qed.

(** X17. On a state in range the image is the grid: the entry at [(r, c)]
    is 1 if [(r, c)] is on and 0 if not. *)
Theorem display_arr_valid (g : Grid) :
  valid g →
  ∃ arr, display_arr g = Some arr ∧
    ∀ r c, 0 <= r < size g → 0 <= c < size g →
      pixel arr r c = Some (if decide ((r, c) ∈ on_cells g) then 1 else 0).
Proof.
  intros Hv.
  destruct (display_arr_inv g) as (arr & Harr & Hinv).
  { intros x Hx. by apply valid_drawable, Hv. }
  exists arr. split; [done|]. intros r c Hr Hc.
  destruct (image_inv_pixel g arr _ r c Hinv Hr Hc) as (v & -> & Hv01 & Hv1).
  f_equal.
  case_decide as Hon.
  - apply Hv1. exists (r, c). cbn [fst snd]. by rewrite !Z.mod_small.
  - destruct Hv01 as [H1|H0]; [|done].
    apply Hv1 in H1 as ([r' c'] & Hx & Hxr & Hxc). destruct Hon.
    destruct (Hv _ Hx) as [? ?]. cbn [fst snd] in *.
    rewrite Z.mod_small in Hxr, Hxc by done. by subst.
Qed.

Lemma display_arr_valid_witness :
  let g := mkGrid 6 blinker_row in
  valid g ∧
  ∃ arr, display_arr g = Some arr ∧
    ∀ r c, 0 <= r < size g → 0 <= c < size g →
      pixel arr r c = Some (if decide ((r, c) ∈ on_cells g) then 1 else 0).
Proof.
  split; [exact blinker_valid|].
  exact (display_arr_valid (mkGrid 6 blinker_row) blinker_valid).
Defined.

(** ** The loop of [display] *)

Lemma update_valid_size g :
  1 <= size g → valid g →
  ∃ g', update g = Some g' ∧ valid g' ∧ size g' = size g.
Proof.
  intros Hn Hv. destruct (update_valid g Hn Hv) as (g' & Hup & Hv').
  exists g'. split; [done|]. split; [done|].
  destruct (update_Some g) as (new & Hup' & _); [lia|].
  rewrite Hup in Hup'. by injection Hup' as ->.
Qed.

Lemma display_arr_is_Some g : valid g → is_Some (display_arr g).
Proof.
  intros Hv. destruct (display_arr_inv g) as (arr & -> & _); [|by eauto].
  intros x Hx. by apply valid_drawable, Hv.
Qed.

Lemma display_loop_valid k g :
  1 <= size g → valid g →
  ∃ g', display_loop k g = Some g' ∧ valid g' ∧ size g' = size g.
Proof.
  revert g. induction k as [|k IH]; intros g Hn Hv.
  - exists g. by cbn.
  - destruct (update_valid_size g Hn Hv) as (g1 & Hup & Hv1 & Hn1).
    destruct (display_arr_is_Some g1 Hv1) as [arr Harr].
    destruct (IH g1) as (g' & Hloop & Hv' & Hn'); [lia|done|].
    exists g'. cbn [display_loop]. rewrite Hup. cbn [mbind option_bind].
    rewrite Harr. cbn [mbind option_bind]. split; [done|].
    split; [done|lia].
Qed.




(** [display] on a grid of size 0: the image is the empty list and the
    loop runs while no cell is on; building the first image raises when one
    is. *)
Example display_size_0 :
  display (init 0) 5 = Some (init 0) ∧ display (mkGrid 0 {[ (0, 0) ]}) 5 = None.
Proof. split; by vm_compute. Qed.

(** ** [main] *)

Lemma main_seed_valid :
  valid (turn_on (init 200)
           [(100, 100); (101, 100); (101, 101); (101, 102); (102, 101)]).
Proof.
  intros [r c] Hx. cbn [turn_on init on_cells size] in Hx.
  apply elem_of_union in Hx as [Hx|Hx]; [by apply elem_of_empty in Hx|].
  rewrite elem_of_list_to_set, !elem_of_cons, elem_of_nil in Hx.
  unfold in_range. cbn [turn_on init size fst snd].
  repeat destruct Hx as [[= -> ->]|Hx]; [lia..|done].
Qed.

Lemma main_seed :
  (λ '(r, c), (200 / 2 + r, 200 / 2 + c)) <$>
    [(0, 0); (1, 0); (1, 1); (1, 2); (2, 1)]
  = [(100, 100); (101, 100); (101, 101); (101, 102); (102, 101)] :> list cell.
Proof. reflexivity. Qed.

Lemma display_valid g n_updates :
  1 <= size g → valid g →
  ∃ g', display g n_updates = Some g' ∧ valid g' ∧ size g' = size g.
Proof.
  intros Hn Hv. destruct (display_arr_is_Some g Hv) as [arr Harr].
  unfold display. rewrite Harr. cbn [mbind option_bind].
  by apply display_loop_valid.
Qed.

(** X19. [main] never raises: its five cells are in range of the grid of
    size 200, and the 10000 updates leave a state in range. *)
Theorem main_runs :
  ∃ g', main = Some g' ∧ valid g' ∧ size g' = 200.
Proof.
  unfold main. cbv zeta. rewrite main_seed.
  apply (display_valid
           (turn_on (init 200)
              [(100, 100); (101, 100); (101, 101); (101, 102); (102, 101)])
           10000).
  - cbn [turn_on init size]. lia.
  - exact main_seed_valid.
Qed.

(** ** The mirror image *)

Section Flip.
Variable n : Z.
Hypothesis n_pos : 0 < n.
Implicit Types (x y z : cell) (a b : Z).

Lemma mod_opp_mod a : (- (a mod n)) mod n = (- a) mod n.
Proof.
  replace (- (a mod n)) with (0 - a mod n) by lia.
  rewrite Zminus_mod_idemp_r. f_equal.
Qed.

Lemma mod_opp_cancel a b :
  0 <= a < n → 0 <= b < n → (- a) mod n = (- b) mod n → a = b.
Proof.
  intros Ha Hb Heq.
  assert ((- ((- a) mod n)) mod n = a) as <-.
  { rewrite mod_opp_mod, Z.opp_involutive. by apply Z.mod_small. }
  rewrite Heq, mod_opp_mod, Z.opp_involutive. by apply Z.mod_small.
Qed.

Lemma mod_opp_pred a : ((- a) mod n - 1) mod n = (- ((a + 1) mod n)) mod n.
Proof.
  rewrite Zminus_mod_idemp_l, mod_opp_mod. f_equal. lia.
Qed.

Lemma mod_opp_succ a : ((- a) mod n + 1) mod n = (- ((a - 1) mod n)) mod n.
Proof.
  rewrite Zplus_mod_idemp_l, mod_opp_mod. f_equal. lia.
Qed.

Lemma flip_inj x y :
  0 <= x.1 < n → 0 <= y.1 < n → flip n x = flip n y → x = y.
Proof.
  destruct x as [r c], y as [r' c']. unfold flip. cbn [fst snd].
  intros ? ? [= H1 ->]. f_equal. by apply mod_opp_cancel.
Qed.

Lemma flip_is_nbr x z :
  0 <= x.1 < n → 0 <= x.2 < n →
  is_nbr n (flip n x) z ↔ ∃ y, z = flip n y ∧ is_nbr n x y.
Proof.
  intros Hr Hc. destruct x as [r c], z as [a b].
  unfold is_nbr, flip. cbn [fst snd] in *. split.
  - intros (Hne & Ha & Hb).
    rewrite mod_opp_pred, mod_opp_succ in Ha.
    assert (∃ r', a = (- r') mod n ∧
              (r' = (r - 1) mod n ∨ r' = r ∨ r' = (r + 1) mod n))
      as (r' & -> & Hr') by (destruct Ha as [?|[?|?]]; eauto 6).
    exists (r', b). cbn [fst snd]. split; [done|]. split; [|done].
    destruct (decide (r' = r)) as [->|]; [|by left].
    right. intros ->. destruct Hne; done.
  - intros ([r' c'] & [= -> ->] & Hxy). cbn [fst snd] in *.
    destruct (is_nbr_in_range n (r, c) (r', c') Hr Hc Hxy) as [Hr' Hc'].
    destruct Hxy as (Hne & Ha & Hb). cbn [fst snd] in *.
    rewrite mod_opp_pred, mod_opp_succ. split; [|split; [|done]].
    + destruct Hne as [Hne|Hne]; [left|by right].
      intros Heq. apply Hne. by apply mod_opp_cancel.
    + destruct Ha as [-> | [-> | ->]]; auto.
Qed.
End Flip.

(** X20. The rule has no preferred direction: on a state in range, taking
    the mirror image in row 0 (row [r] to row [-r % size]) and then calling
    [update] gives the mirror image of the updated state. *)
Theorem update_flip (g : Grid) :
  1 <= size g → valid g →
  ∃ g',
    update g = Some g' ∧
    update (mkGrid (size g) (set_map (flip (size g)) (on_cells g))) =
    Some (mkGrid (size g) (set_map (flip (size g)) (on_cells g'))).
Proof.
  intros Hn Hv. destruct g as [n X]. cbn [size on_cells] in *.
  destruct (update_set_map n (flip n)
              (λ x, 0 <= x.1 < n ∧ 0 <= x.2 < n)) with (X := X)
    as (new & HX & HfX).
  - lia.
  - intros x y [? ?] [? ?]. apply flip_inj; lia.
  - intros x z [? ?]. apply flip_is_nbr; lia.
  - intros x y [? ?]. by apply is_nbr_in_range.
  - intros x Hx. apply (Hv x Hx).
  - exists (mkGrid n new). by split.
Qed.

Lemma update_flip_witness :
  let g := mkGrid 6 blinker_row in
  1 <= size g ∧ valid g ∧
  ∃ g',
    update g = Some g' ∧
    update (mkGrid (size g) (set_map (flip (size g)) (on_cells g))) =
    Some (mkGrid (size g) (set_map (flip (size g)) (on_cells g'))).
Proof.
  split; [simpl; lia|]. split; [exact blinker_valid|].
  apply (update_flip (mkGrid 6 blinker_row)); [simpl; lia|exact blinker_valid].
Defined.

(** ** How far a generation can grow *)

Lemma len_union_le (A B : gset cell) : len (A ∪ B) <= len A + len B.
Proof.
  unfold len. rewrite size_union_alt.
  assert (B ∖ A ⊆ B) as Hsub%subseteq_size by set_solver. lia.
Qed.

Lemma nbrs_of_bound (n : Z) (X : gset cell) :
  n ≠ 0 →
  ∃ U : gset cell,
    (∀ x y, x ∈ X → is_nbr n x y → y ∈ U) ∧ len U <= 8 * len X.
Proof.
  intros Hn. induction X as [|x X Hx (U & HU & Hlen)] using set_ind_L.
  - exists ∅. split; [set_solver|]. unfold len. rewrite !size_empty. lia.
  - exists (nbr_set n x ∪ U). split.
    + intros x' y [->%elem_of_singleton|Hx']%elem_of_union Hxy;
        apply elem_of_union; [left|right].
      * by apply elem_of_nbr_set.
      * by eapply HU.
    + pose proof (len_union_le (nbr_set n x) U).
      pose proof (len_nbr_set_le n x Hn).
      assert (len ({[x]} ∪ X) = 1 + len X).
      { unfold len. rewrite size_union, size_singleton by set_solver. lia. }
      lia.
Qed.

(** X21. One [update] turns on at most 8 cells per cell that was on, so the
    new generation has at most 9 times as many cells as the old one. *)
Theorem update_growth (g : Grid) :
  size g ≠ 0 →
  ∃ g', update g = Some g' ∧
    len (on_cells g' ∖ on_cells g) <= 8 * len (on_cells g) ∧
    len (on_cells g') <= 9 * len (on_cells g).
Proof.
  intros Hn. destruct (update_Some g Hn) as (new & -> & Hnew).
  eexists. split; [reflexivity|]. cbn [on_cells].
  destruct (nbrs_of_bound (size g) (on_cells g) Hn) as (U & HU & Hlen).
  assert (new ∖ on_cells g ⊆ U) as Hsub.
  { intros y [Hy Hoff]%elem_of_difference.
    apply Hnew in Hy as [[? _]|(_ & (x & Hx & Hxy) & _)]; [done|].
    by eapply HU. }
  assert (len (new ∖ on_cells g) <= len U) as Hle.
  { unfold len. by apply inj_le, subseteq_size. }
  split; [lia|].
  assert (new ⊆ on_cells g ∪ new ∖ on_cells g) as Hsub'.
  { intros y Hy. destruct (decide (y ∈ on_cells g)); set_solver. }
  pose proof (len_union_le (on_cells g) (new ∖ on_cells g)).
  assert (len new <= len (on_cells g ∪ new ∖ on_cells g)).
  { unfold len. by apply inj_le, subseteq_size. }
  lia.
Qed.

Lemma update_growth_witness :
  let g := mkGrid 6 blinker_row in
  size g ≠ 0 ∧
  ∃ g', update g = Some g' ∧
    len (on_cells g' ∖ on_cells g) <= 8 * len (on_cells g) ∧
    len (on_cells g') <= 9 * len (on_cells g).
Proof.
  split; [simpl; lia|].
  apply (update_growth (mkGrid 6 blinker_row)). simpl. lia.
Defined.
